(** * query-ast: a shallow embedding of [lib/index.js]

    The library wraps a raw tree in an overlay of [Node] objects that carry
    parent and children references, and offers a chainable [Wrapper] over
    ordered sets of such nodes.  JavaScript objects have identity and the
    children arrays are mutated in place, so the overlay is modelled as an
    arena: a list of node records in which a node's identity is its index.
    Arrays of nodes are lists of indices, and every method that mutates a
    children array is a function from arena to arena.

    The session is the one of the default options: raw nodes have the
    format [{ type, value }] that the default adapter reads.  Callbacks
    (function selectors, the function given to [replace]) are total
    functions that read the overlay; regular expressions carry no state.
    The walk from a node through its children follows identities and is
    not structural, so [toJSON] and [reduce] take a recursion budget; the
    theorems show that a budget of the height of the tree is enough. *)

From Stdlib Require Import ZArith Ascii String.
From stdpp Require Import base list strings.

Set Warnings "-register-all".

Local Open Scope string_scope.
Local Open Scope list_scope.
Local Open Scope Z_scope.

(** ** Raw trees and the default adapter *)

(** A raw node in the default format [{ type, value }], where [value] is
    either the string of a leaf or the array of child nodes. *)
Inductive raw : Type :=
| Leaf (type : string) (value : string)
| Branch (type : string) (value : list raw).

(** [hasChildren: (node) => Array.isArray(node.value)] *)
Definition hasChildren (node : raw) : bool :=
  match node with
  | Branch _ _ => true
  | Leaf _ _ => false
  end.


(** [getType: (node) => node.type] *)
Definition getType (node : raw) : string :=
  match node with
  | Leaf type _ => type
  | Branch type _ => type
  end.

(** [toJSON: (node, children) => Object.assign({}, node, { value: children ?
    children : node.value })].  An array, even an empty one, is truthy;
    [null] is not. *)
Definition toJSON (node : raw) (children : option (list raw)) : raw :=
  match children with
  | Some cs => Branch (getType node) cs
  | None => node
  end.

(** [toString: (node) => _.isString(node.value) ? node.value : ''] *)
Definition toString (node : raw) : string :=
  match node with
  | Leaf _ value => value
  | Branch _ _ => EmptyString
  end.

(** ** JavaScript values that reach the API *)

Abbreviation node_id := nat.

(** A JavaScript number, as far as the code distinguishes numbers: an
    integer, or one of the numbers that [_.isInteger] rejects. *)
Inductive number : Type :=
| Int (z : Z)
| Fraction (floor : Z) (part : positive)
| Infinity (negative : bool)
| NaN.

Inductive value : Type :=
| VUndefined
| VNull
| VBool (b : bool)
| VNum (n : number)
| VStr (s : string)
| VObject (r : raw)
| VNode (n : node_id)
| VArray (l : list value).

(** JavaScript truthiness, the [!node] test. *)
Definition truthy (v : value) : bool :=
  match v with
  | VUndefined | VNull => false
  | VBool b => b
  | VNum (Int z) => negb (Z.eqb z 0)
  | VNum NaN => false
  | VNum _ => true
  | VStr s => negb (String.eqb s EmptyString)
  | VObject _ | VNode _ | VArray _ => true
  end.

(** [_.isInteger] *)
Definition isInteger (v : value) : bool :=
  match v with
  | VNum (Int _) => true
  | _ => false
  end.

(** [_.isPlainObject] *)
Definition isPlainObject (v : value) : bool :=
  match v with
  | VObject _ => true
  | _ => false
  end.

(** ** Outcomes *)

Inductive error : Type :=
| TypeError
| Invariant (message : string).

(** What a call does: it returns, it throws, or the model's recursion
    budget ran out before the call finished (the overlay is walked by
    identity, which is not structural). *)
Inductive result (A : Type) : Type :=
| Ok (a : A)
| Throw (e : error)
| OutOfFuel.
Arguments Ok {A} a.
Arguments Throw {A} e.
Arguments OutOfFuel {A}.

Definition rbind {A B} (r : result A) (k : A → result B) : result B :=
  match r with
  | Ok a => k a
  | Throw e => Throw e
  | OutOfFuel => OutOfFuel
  end.

Declare Scope js_scope.
Delimit Scope js_scope with js.
Notation "'let*' x ':=' c 'in' k" := (rbind c (fun x => k))
  (at level 10, x pattern, c at level 100, k at level 200) : js_scope.
Local Open Scope js_scope.

(** [invariant(cond, message)] *)
Definition invariant (cond : bool) (message : string) : result unit :=
  if cond then Ok tt else Throw (Invariant message).

(** [Array.prototype.reduce] with a callback that may throw. *)
Fixpoint reduceM {A B} (fn : A → B → result A) (l : list B) (acc : A) : result A :=
  match l with
  | [] => Ok acc
  | x :: l' => let* a := fn acc x in reduceM fn l' a
  end.

(** [Array.prototype.map] with a callback that may throw. *)
Fixpoint mapM {A B} (fn : A → result B) (l : list A) : result (list B) :=
  match l with
  | [] => Ok []
  | x :: l' => let* y := fn x in let* ys := mapM fn l' in Ok (y :: ys)
  end.

(** [Array.prototype.filter] with a callback that may throw. *)
Fixpoint filterM {A} (fn : A → result bool) (l : list A) : result (list A) :=
  match l with
  | [] => Ok []
  | x :: l' =>
      let* b := fn x in
      let* ys := filterM fn l' in
      Ok (if b then x :: ys else ys)
  end.

(** ** The overlay *)

(** [class Node]: the wrapped raw node, the parent ([undefined] for the
    root) and the children array ([null] without children). *)
Record Node : Type := mkNode {
  node : raw;
  parent : option node_id;
  children : option (list node_id)
}.

(** The arena of all [Node] objects created so far. *)
Abbreviation Overlay := (list Node).

(** [new Node(node, parent)]: the object is allocated, its children are
    constructed left to right with [this] as their parent, and the array
    is stored in [this.children]. *)
Fixpoint new_Node (r : raw) (parent : option node_id) (h : Overlay)
  : node_id * Overlay :=
  let this := length h in
  match r with
  | Leaf _ _ => (this, h ++ [mkNode r parent None])
  | Branch _ cs =>
      let h0 := h ++ [mkNode r parent None] in
      let '(ids, h1) :=
        (fix map_new (cs : list raw) (h : Overlay) : list node_id * Overlay :=
           match cs with
           | [] => ([], h)
           | c :: cs' =>
               let '(i, h') := new_Node c (Some this) h in
               let '(rest, h'') := map_new cs' h' in
               (i :: rest, h'')
           end) cs h0 in
      (this, <[this := mkNode r parent (Some ids)]> h1)
  end.

(** The [getChildren(node).map((n) => new Node(n, this))] of the constructor. *)
Fixpoint map_new_Node (cs : list raw) (this : node_id) (h : Overlay)
  : list node_id * Overlay :=
  match cs with
  | [] => ([], h)
  | c :: cs' =>
      let '(i, h') := new_Node c (Some this) h in
      let '(rest, h'') := map_new_Node cs' this h' in
      (i :: rest, h'')
  end.


(** Reading a reference: a property of [undefined] cannot be read, and an
    index outside the arena names no object. *)
Definition deref (h : Overlay) (n : option node_id) : result Node :=
  match n with
  | None => Throw TypeError
  | Some i =>
      match h !! i with
      | Some nd => Ok nd
      | None => Throw TypeError
      end
  end.

(** [get hasChildren () { return hasChildren(this.node) }] *)
Definition Node_hasChildren (h : Overlay) (this : option node_id) : result bool :=
  let* nd := deref h this in Ok (hasChildren (node nd)).

(** [this.children] as an array on which a method is called: [null] has none. *)
Definition Node_children (h : Overlay) (this : option node_id)
  : result (list node_id) :=
  let* nd := deref h this in
  match children nd with
  | Some cs => Ok cs
  | None => Throw TypeError
  end.

(** [Node.prototype.toJSON] *)
Fixpoint Node_toJSON (fuel : nat) (h : Overlay) (this : node_id) : result raw :=
  match fuel with
  | O => OutOfFuel
  | S fuel' =>
      let* nd := deref h (Some this) in
      if hasChildren (node nd) then
        let* cs := Node_children h (Some this) in
        let* js := mapM (Node_toJSON fuel' h) cs in
        Ok (toJSON (node nd) (Some js))
      else Ok (toJSON (node nd) None)
  end.

(** [Node.prototype.reduce]: the children are reduced first, left to
    right, and [fn] is applied to the node itself last. *)
Fixpoint Node_reduce {A} (fuel : nat) (h : Overlay)
    (fn : A → node_id → result A) (acc : A) (this : node_id) : result A :=
  match fuel with
  | O => OutOfFuel
  | S fuel' =>
      let* nd := deref h (Some this) in
      if hasChildren (node nd) then
        let* cs := Node_children h (Some this) in
        let* a := reduceM (Node_reduce fuel' h fn) cs acc in
        fn a this
      else fn acc this
  end.

(** What [after], [before] and the callback of [replace] hand to
    [Node.create]: a raw node or a [Node]. *)
Inductive node_arg : Type :=
| Raw (r : raw)
| Wrapped (n : node_id).

(** [static create (node, parent)]: a [Node] is returned as it is, with
    the parent it already has. *)
Definition Node_create (a : node_arg) (parent : option node_id) (h : Overlay)
  : node_id * Overlay :=
  match a with
  | Wrapped n => (n, h)
  | Raw r => new_Node r parent h
  end.

(** [static isNode (node)] *)
Definition isNode (v : value) : bool :=
  match v with
  | VNode _ => true
  | _ => false
  end.

(** ** A session *)

(** [const ROOT = Node.create(ast)]: the first object of the arena. *)
Definition ROOT : node_id := 0%nat.

(** The double quote, character 34. *)
Definition double_quote : ascii :=
  Ascii false true false false false true false false.

(** The message of the first [invariant] of [createQuery], in which
    [ast] stands between double quotes. *)
Definition ast_must_be_a_plain_object : string :=
  String double_quote
    ("ast" ++ String double_quote " must be a plain object")%string.

(** [module.exports = (ast, options) => ...] with the default options:
    the overlay of the session, in which [ROOT] is the root node.  A
    plain object is a tree in the default format here: [type] is a
    string and [value] is a string or an array of such trees. *)
Definition createQuery (ast : value) : result Overlay :=
  let* _ := invariant (isPlainObject ast) ast_must_be_a_plain_object in
  match ast with
  | VObject r => Ok (snd (Node_create (Raw r) None []))
  | _ => Throw TypeError
  end.

(** ** Selectors *)

(** A regular expression without the [g] and [y] flags, whose [test]
    depends on the string alone and leaves the object as it is.  The
    object with its flags and [lastIndex] is [RegExpObject] below. *)
Record RegExp : Type := mkRegExp { test : string → bool }.

(** An argument in selector position: a plain value, a regular
    expression without flags, or a function of the [Node] or the
    [undefined] it is called with, which keeps no state and reads
    neither the index nor the array that [Array.prototype.filter]
    passes behind the node. *)
Inductive arg : Type :=
| AValue (v : value)
| ARegExp (re : RegExp)
| AFunction (f : Overlay → option node_id → bool).

Definition predicate : Type := Overlay → option node_id → result bool.

(** [getSelector] *)
Definition getSelector (selector : arg) : predicate :=
  match selector with
  | AValue (VStr s) =>
      fun h n => let* nd := deref h n in Ok (String.eqb (getType (node nd)) s)
  | ARegExp re =>
      fun h n => let* nd := deref h n in Ok (test re (getType (node nd)))
  | AFunction f => fun h n => Ok (f h n)
  | AValue _ => fun _ _ => Ok true
  end.

(** ** Wrapper *)

Inductive Wrapper : Type := mkWrapper {
  nodes : list node_id;
  prevWrapper : option Wrapper
}.

(** [_.flatten]: one level. *)
Definition flatten (l : list value) : list value :=
  flat_map (fun v => match v with VArray l' => l' | _ => [v] end) l.

Definition as_node (v : value) : option node_id :=
  match v with
  | VNode n => Some n
  | _ => None
  end.

Definition of_node (n : option node_id) : value :=
  match n with
  | Some i => VNode i
  | None => VUndefined
  end.

(** [constructor (node, prevWrapper)], also [$]. *)
Definition new_Wrapper (n : value) (prev : option Wrapper) : result Wrapper :=
  let n := if truthy n then n else VNode ROOT in
  let ns := flatten [n] in
  let* _ := invariant (forallb isNode ns)
              "Only Node instances can be passed in to a Wrapper" in
  Ok (mkWrapper (omap as_node ns) prev).

(** The query function that [createQuery] returns: [(node) => $(node)]. *)
Definition query (n : value) : result Wrapper := new_Wrapper n None.

(** [$filter (nodes, selector)]; the array may hold [undefined].  The
    selectors of [arg] read the first argument of the callback alone. *)
Definition dollar_filter (this : Wrapper) (ns : list (option node_id))
    (selector : predicate) (h : Overlay) : result Wrapper :=
  let* ns' := filterM (selector h) ns in
  new_Wrapper (VArray (map of_node ns')) (Some this).

(** [array[index]] at an integer index. *)
Definition at_index {A} (l : list A) (index : Z) : option A :=
  if index <? 0 then None else l !! Z.to_nat index.

(** [get (index)]; [_.isInteger(index)] holds of the integers alone. *)
Definition Wrapper_get (fuel : nat) (this : Wrapper) (index : value) (h : Overlay)
  : result value :=
  match index with
  | VNum (Int i) =>
      match at_index (nodes this) i with
      | Some n => let* j := Node_toJSON fuel h n in Ok (VObject j)
      | None => Throw TypeError
      end
  | _ =>
      let* js := mapM (Node_toJSON fuel h) (nodes this) in
      Ok (VArray (map VObject js))
  end.

(** [length ()] *)
Definition Wrapper_length (this : Wrapper) : Z := Z.of_nat (length (nodes this)).

(** [Array.prototype.indexOf] on an array of nodes. *)
Definition indexOf (l : list node_id) (n : node_id) : Z :=
  match list_find (λ x, x = n) l with
  | Some (i, _) => Z.of_nat i
  | None => -1
  end.

Definition arg_truthy (a : arg) : bool :=
  match a with
  | AValue v => truthy v
  | ARegExp _ | AFunction _ => true
  end.

(** [index (node)] *)
Definition Wrapper_index (this : Wrapper) (a : arg) (h : Overlay) : result Z :=
  if negb (arg_truthy a) then
    match head (nodes this) with
    | Some n =>
        let* nd := deref h (Some n) in
        match parent nd with
        | Some p =>
            let* pc := Node_hasChildren h (Some p) in
            if pc then
              let* cs := Node_children h (Some p) in Ok (indexOf cs n)
            else Ok (-1)
        | None => Ok (-1)
        end
    | None => Ok (-1)
    end
  else
    match a with
    | AValue (VNode m) => Ok (indexOf (nodes this) m)
    | _ =>
        let* nd := deref h (head (nodes this)) in
        let* pc := Node_hasChildren h (parent nd) in
        if negb pc then Ok (-1) else
        let* cs := Node_children h (parent nd) in
        let* w := dollar_filter this (map Some cs) (getSelector a) h in
        match head (nodes this) with
        | Some n => Ok (indexOf (nodes w) n)
        | None => Throw TypeError
        end
    end.

(** ** Mutation *)

(** A method that may change the overlay before it returns or throws. *)
Definition M (A : Type) : Type := Overlay → result A * Overlay.

Definition ret {A} (a : A) : M A := fun h => (Ok a, h).

Definition bind {A B} (m : M A) (k : A → M B) : M B :=
  fun h =>
    match m h with
    | (Ok a, h') => k a h'
    | (Throw e, h') => (Throw e, h')
    | (OutOfFuel, h') => (OutOfFuel, h')
    end.

(** A computation that only reads the overlay. *)
Definition read {A} (f : Overlay → result A) : M A := fun h => (f h, h).

(** A computation that cannot fail. *)
Definition run {A} (f : Overlay → A * Overlay) : M A :=
  fun h => let '(a, h') := f h in (Ok a, h').

Notation "'let!' x ':=' c 'in' k" := (bind c (fun x => k))
  (at level 10, x pattern, c at level 100, k at level 200) : js_scope.

(** [for (let n of nodes) body(n)] *)
Fixpoint for_of {A} (l : list A) (body : A → M unit) : M unit :=
  match l with
  | [] => ret tt
  | n :: l' => let! _ := body n in for_of l' body
  end.

(** [Array.prototype.splice (start, deleteCount, ...items)] *)
Definition splice {A} (start deleteCount : nat) (items : list A) (l : list A)
  : list A :=
  take start l ++ items ++ drop (start + deleteCount) l.

(** [p.children.splice(...)]: the array of [p] is changed in place. *)
Definition splice_children (p : option node_id) (start deleteCount : nat)
    (items : list node_id) : M unit :=
  fun h =>
    match p, Node_children h p with
    | Some i, Ok cs =>
        match h !! i with
        | Some pn =>
            (Ok tt,
             <[i := mkNode (node pn) (parent pn)
                      (Some (splice start deleteCount items cs))]> h)
        | None => (Throw TypeError, h)
        end
    | _, Ok _ => (Throw TypeError, h)
    | _, Throw e => (Throw e, h)
    | _, OutOfFuel => (OutOfFuel, h)
    end.

(** [let p = n.parent] for a member [n] of the selection. *)
Definition parent_of (n : node_id) : M (option node_id) :=
  read (fun h => let* nd := deref h (Some n) in Ok (parent nd)).

(** The body of the loop of [after], for the member [n]. *)
Definition after_body (a : node_arg) (n : node_id) : M unit :=
  let! p := parent_of n in
  let! pc := read (fun h => Node_hasChildren h p) in
  if negb pc then ret tt else
  let! i := read (fun h =>
    let* w := new_Wrapper (VNode n) None in
    Wrapper_index w (AValue VUndefined) h) in
  if 0 <=? i then
    let! c := run (Node_create a p) in
    splice_children p (Z.to_nat (i + 1)) 0 [c]
  else ret tt.

(** [after (node)] *)
Definition Wrapper_after (this : Wrapper) (a : node_arg) : M Wrapper :=
  let! _ := for_of (nodes this) (after_body a) in
  ret this.

(** The body of the loop of [before]. *)
Definition before_body (a : node_arg) (n : node_id) : M unit :=
  let! p := parent_of n in
  let! pc := read (fun h => Node_hasChildren h p) in
  if negb pc then ret tt else
  let! i := read (fun h => let* cs := Node_children h p in Ok (indexOf cs n)) in
  if 0 <=? i then
    let! c := run (Node_create a p) in
    splice_children p (Z.to_nat i) 0 [c]
  else ret tt.

(** [before (node)] *)
Definition Wrapper_before (this : Wrapper) (a : node_arg) : M Wrapper :=
  let! _ := for_of (nodes this) (before_body a) in
  ret this.

(** The body of the loop of [remove]. *)
Definition remove_body (n : node_id) : M unit :=
  let! p := parent_of n in
  let! pc := read (fun h => Node_hasChildren h p) in
  if negb pc then ret tt else
  let! i := read (fun h => let* cs := Node_children h p in Ok (indexOf cs n)) in
  if 0 <=? i then splice_children p (Z.to_nat i) 1 []
  else ret tt.

(** [remove ()] *)
Definition Wrapper_remove (this : Wrapper) : M Wrapper :=
  let! _ := for_of (nodes this) remove_body in
  ret this.

(** The body of the loop of [replace]; the callback reads the overlay
    and the node it is given. *)
Definition replace_body (fn : Overlay → node_id → node_arg) (n : node_id)
  : M unit :=
  let! p := parent_of n in
  let! pc := read (fun h => Node_hasChildren h p) in
  if negb pc then ret tt else
  let! i := read (fun h => let* cs := Node_children h p in Ok (indexOf cs n)) in
  if 0 <=? i then
    let! a := read (fun h => Ok (fn h n)) in
    let! c := run (Node_create a p) in
    splice_children p (Z.to_nat i) 1 [c]
  else ret tt.

(** [replace (fn)] *)
Definition Wrapper_replace (this : Wrapper) (fn : Overlay → node_id → node_arg)
  : M Wrapper :=
  let! _ := for_of (nodes this) (replace_body fn) in
  ret this.

(** ** Traversal *)

(** [_.uniq]: the first occurrence of every node is kept. *)
Fixpoint uniq_from (seen : list node_id) (l : list node_id) : list node_id :=
  match l with
  | [] => []
  | x :: l' =>
      if bool_decide (x ∈ seen) then uniq_from seen l'
      else x :: uniq_from (x :: seen) l'
  end.

Definition uniq (l : list node_id) : list node_id := uniq_from [] l.

(** [_.flatMap] with a callback that may throw and returns an array. *)
Definition flatMapM {A B} (fn : A → result (list B)) (l : list A)
  : result (list B) :=
  let* ls := mapM fn l in Ok (concat ls).

(** [this.nodes[index]] *)
Definition nodes_at (this : Wrapper) (index : value) : option node_id :=
  match index with
  | VNum (Int i) => at_index (nodes this) i
  | _ => None
  end.

(** [children (selector)] *)
Definition Wrapper_children (this : Wrapper) (selector : arg) (h : Overlay)
  : result Wrapper :=
  let selector := getSelector selector in
  let* ns := flatMapM (fun n =>
    let* nd := deref h (Some n) in
    if hasChildren (node nd) then
      match children nd with
      | Some cs => Ok (map Some cs)
      | None => Ok [None]
      end
    else Ok []) (nodes this) in
  dollar_filter this ns selector h.

(** [eq (index)] *)
Definition Wrapper_eq (this : Wrapper) (index : value) : result Wrapper :=
  let* _ := invariant (isInteger index) "eq() requires an index" in
  match nodes_at this index with
  | Some n => new_Wrapper (VNode n) (Some this)
  | None => new_Wrapper (VArray []) (Some this)
  end.

(** [find (selector)] *)
Definition Wrapper_find (fuel : nat) (this : Wrapper) (selector : arg)
    (h : Overlay) : result Wrapper :=
  let selector := getSelector selector in
  let* ns := flatMapM (fun n =>
    Node_reduce fuel h (fun a n =>
      let* b := selector h (Some n) in Ok (if b then a ++ [n] else a)) [] n)
    (nodes this) in
  new_Wrapper (VArray (map VNode (uniq ns))) (Some this).

(** [filter (selector)] *)
Definition Wrapper_filter (this : Wrapper) (selector : arg) (h : Overlay)
  : result Wrapper :=
  dollar_filter this (map Some (nodes this)) (getSelector selector) h.

(** [first ()] *)
Definition Wrapper_first (this : Wrapper) : result Wrapper :=
  Wrapper_eq this (VNum (Int 0)).


(** [last ()] *)
Definition Wrapper_last (this : Wrapper) : result Wrapper :=
  Wrapper_eq this (VNum (Int (Wrapper_length this - 1))).

(** [next (selector)]: [index] is [this.index()] for every [n]. *)
Definition Wrapper_next (this : Wrapper) (selector : arg) (h : Overlay)
  : result Wrapper :=
  let selector := getSelector selector in
  let* ns := flatMapM (fun n =>
    let* index := Wrapper_index this (AValue VUndefined) h in
    if 0 <=? index then
      let* nd := deref h (Some n) in
      let* cs := Node_children h (parent nd) in
      if index <? Z.of_nat (length cs) - 1
      then Ok [at_index cs (index + 1)]
      else Ok []
    else Ok []) (nodes this) in
  dollar_filter this ns selector h.

(** [parent (selector)] *)
Definition Wrapper_parent (this : Wrapper) (selector : arg) (h : Overlay)
  : result Wrapper :=
  let selector := getSelector selector in
  let* ns := mapM (fun n => let* nd := deref h (Some n) in Ok (parent nd))
               (nodes this) in
  dollar_filter this ns selector h.

(** [prev (selector)]: [index] is [this.index()] for every [n]. *)
Definition Wrapper_prev (this : Wrapper) (selector : arg) (h : Overlay)
  : result Wrapper :=
  let selector := getSelector selector in
  let* ns := flatMapM (fun n =>
    let* index := Wrapper_index this (AValue VUndefined) h in
    if 0 <? index then
      let* nd := deref h (Some n) in
      let* cs := Node_children h (parent nd) in
      Ok [at_index cs (index - 1)]
    else Ok []) (nodes this) in
  dollar_filter this ns selector h.

(** [value ()] *)
Definition Wrapper_value (fuel : nat) (this : Wrapper) (h : Overlay)
  : result string :=
  reduceM (fun v n =>
    Node_reduce fuel h (fun v n =>
      let* nd := deref h (Some n) in Ok (v ++ toString (node nd))%string) v n)
    (nodes this) EmptyString.

(** ** Examples *)

Definition item (s : string) : raw := Leaf "item" s.

(** The tree of the README: a program with two containers and an item. *)
Definition readme_ast : raw :=
  Branch "program"
    [ Branch "item_container" [item "a"];
      Branch "item_container" [];
      item "b" ].

Definition readme_overlay : Overlay := snd (new_Node readme_ast None []).

(** Three sibling leaves under one root. *)
Definition abc_ast : raw := Branch "list" [item "a"; item "b"; item "c"].

Definition abc_overlay : Overlay := snd (new_Node abc_ast None []).

(** ** Properties of overlays *)

(** The selection on the root alone, as the query function returns it. *)
Definition root_selection : Wrapper := mkWrapper [ROOT] None.

Definition not_a_node : error :=
  Invariant "Only Node instances can be passed in to a Wrapper".

(** Height of a raw tree: the recursion budget its overlay needs. *)
Fixpoint height (r : raw) : nat :=
  match r with
  | Leaf _ _ => 1
  | Branch _ cs => S (foldr (λ c m, Nat.max (height c) m) 0%nat cs)
  end.

(** The overlay below node [n] spells the raw tree [r]: the wrapped raw
    node gives type and leaf value, the children array gives the
    children. *)
Fixpoint represents (h : Overlay) (n : node_id) (r : raw) {struct r} : Prop :=
  match r with
  | Leaf _ _ => ∃ p, h !! n = Some (mkNode r p None)
  | Branch t cs =>
      ∃ cs0 p ids,
        h !! n = Some (mkNode (Branch t cs0) p (Some ids)) ∧
        (fix all2 (ids : list node_id) (cs : list raw) {struct cs} : Prop :=
           match cs, ids with
           | [], [] => True
           | c :: cs', i :: ids' => represents h i c ∧ all2 ids' cs'
           | _, _ => False
           end) ids cs
  end.

(** Whether a node satisfies a selector. *)
Definition matches (selector : arg) (h : Overlay) (n : node_id) : bool :=
  match getSelector selector h (Some n) with
  | Ok b => b
  | _ => false
  end.

(** The adapter's own normal form of a raw tree: [toJSON] applied from
    the leaves up, with no overlay in between. *)
Fixpoint normalize (r : raw) : raw :=
  match r with
  | Leaf _ _ => toJSON r None
  | Branch _ cs => toJSON r (Some (map normalize cs))
  end.

(** Only a node whose raw node has children holds a children array;
    every member of the array is a node whose parent is the holder, and
    occurs in the array once. *)
Definition children_consistent (h : Overlay) : Prop :=
  ∀ p pn cs,
    h !! p = Some pn → children pn = Some cs →
    hasChildren (node pn) = true ∧
    NoDup cs ∧ ∀ c, c ∈ cs → ∃ cn, h !! c = Some cn ∧ parent cn = Some p.

(** [index()] of a member of a children array is the place of the
    member in the array. *)
Definition index_is_place (h : Overlay) : Prop :=
  ∀ p pn cs i c,
    h !! p = Some pn → children pn = Some cs → cs !! i = Some c →
    Wrapper_index (mkWrapper [c] None) (AValue VUndefined) h = Ok (Z.of_nat i).

(** A node that has a parent occurs in the children array of the parent. *)
Definition attached (h : Overlay) (n : node_id) : Prop :=
  ∀ nd p,
    h !! n = Some nd → parent nd = Some p →
    ∃ pn cs, h !! p = Some pn ∧ children pn = Some cs ∧ n ∈ cs.

(** Both directions at once, as the overlay invariant is worded. *)
Definition overlay_invariant (h : Overlay) : Prop :=
  children_consistent h ∧ ∀ n, attached h n.

(** What [new Node(r, p)] must keep: the overlay consistent and every
    node but the new one attached. *)
Definition new_Node_keeps (r : raw) : Prop :=
  ∀ p h, children_consistent h →
    children_consistent (snd (new_Node r p h)) ∧
    ∀ q, q ≠ length h → attached h q → attached (snd (new_Node r p h)) q.

(** Where a round changes the overlay: [n] has the parent [p], whose
    array [cs] holds [n] at the index [i]. *)
Definition located (h : Overlay) (n p : node_id) (pn : Node)
    (cs : list node_id) (i : nat) : Prop :=
  (∃ nd, h !! n = Some nd ∧ parent nd = Some p) ∧
  h !! p = Some pn ∧ children pn = Some cs ∧ cs !! i = Some n.

(** Executable checks of the two conditions. *)
Definition children_consistentb (h : Overlay) : bool :=
  forallb (λ p,
    match h !! p with
    | Some {| node := r; children := Some cs |} =>
        hasChildren r && bool_decide (NoDup cs) &&
        forallb (λ c,
          match h !! c with
          | Some cn => bool_decide (parent cn = Some p)
          | None => false
          end) cs
    | _ => true
    end) (seq 0 (length h)).

Definition attachedb (h : Overlay) (n : node_id) : bool :=
  match h !! n with
  | Some {| parent := Some p |} =>
      match h !! p with
      | Some {| children := Some cs |} => bool_decide (n ∈ cs)
      | _ => false
      end
  | _ => true
  end.

Definition overlay_invariantb (h : Overlay) : bool :=
  children_consistentb h && forallb (attachedb h) (seq 0 (length h)).

(** The nodes below [n] and [n] itself, children first. *)
Fixpoint postorder (fuel : nat) (h : Overlay) (n : node_id) : list node_id :=
  match fuel with
  | O => []
  | S fuel' =>
      match h !! n with
      | Some {| children := Some cs |} =>
          flat_map (postorder fuel' h) cs ++ [n]
      | _ => [n]
      end
  end.

(** The proper descendants of [n], children first. *)
Definition descendants (fuel : nat) (h : Overlay) (n : node_id) : list node_id :=
  match h !! n with
  | Some {| children := Some cs |} => flat_map (postorder fuel h) cs
  | _ => []
  end.

(** ** The remaining methods of [Wrapper] *)

(** [map (fn)] *)
Definition Wrapper_map {B} (this : Wrapper) (fn : node_id → B) : list B :=
  map fn (nodes this).

(** [reduce (fn, acc)] *)
Definition Wrapper_reduce {B} (this : Wrapper) (fn : B → node_id → B) (acc : B)
  : B :=
  fold_left fn (nodes this) acc.

(** The loop of [closest]: [while (parent) { if (selector(parent)) break;
    parent = parent.parent }]; what is left in [parent] is returned. *)
Fixpoint closest_loop (fuel : nat) (selector : predicate) (h : Overlay)
    (parent_ : option node_id) : result (option node_id) :=
  match fuel with
  | O => OutOfFuel
  | S fuel' =>
      match parent_ with
      | None => Ok None
      | Some p =>
          let* b := selector h (Some p) in
          if b then Ok (Some p)
          else
            let* nd := deref h (Some p) in
            closest_loop fuel' selector h (parent nd)
      end
  end.

(** [closest (selector)]; the callback returns [parent || []]. *)
Definition Wrapper_closest (fuel : nat) (this : Wrapper) (selector : arg)
    (h : Overlay) : result Wrapper :=
  let selector := getSelector selector in
  let* ns := flatMapM (fun n =>
    let* found := closest_loop fuel selector h (Some n) in
    Ok (option_list found)) (nodes this) in
  new_Wrapper (VArray (map VNode (uniq ns))) (Some this).

(** [nextAll (selector)]: [index] is [this.index()] for every [n]. *)
Definition Wrapper_nextAll (this : Wrapper) (selector : arg) (h : Overlay)
  : result Wrapper :=
  let selector := getSelector selector in
  let* ns := flatMapM (fun n =>
    let* index := Wrapper_index this (AValue VUndefined) h in
    if 0 <=? index then
      let* nd := deref h (Some n) in
      let* cs := Node_children h (parent nd) in
      if index <? Z.of_nat (length cs) - 1
      then Ok (map Some (drop (Z.to_nat (index + 1)) cs))
      else Ok []
    else Ok []) (nodes this) in
  dollar_filter this ns selector h.

(** The loop of [parents] and of [parentsUntil]: [while (parent &&
    !selector(parent)) { parents.push(parent); parent = parent.parent }];
    [parents] has no test of its own and never stops before the root. *)
Fixpoint parents_loop (fuel : nat) (stop : predicate) (h : Overlay)
    (parent_ : option node_id) : result (list node_id) :=
  match fuel with
  | O => OutOfFuel
  | S fuel' =>
      match parent_ with
      | None => Ok []
      | Some p =>
          let* b := stop h (Some p) in
          if b then Ok []
          else
            let* nd := deref h (Some p) in
            let* rest := parents_loop fuel' stop h (parent nd) in
            Ok (p :: rest)
      end
  end.


(** [parentsUntil (selector)] *)
Definition Wrapper_parentsUntil (fuel : nat) (this : Wrapper) (selector : arg)
    (h : Overlay) : result Wrapper :=
  let selector := getSelector selector in
  let* ns := flatMapM (fun n =>
    let* nd := deref h (Some n) in
    parents_loop fuel selector h (parent nd)) (nodes this) in
  new_Wrapper (VArray (map VNode (uniq ns))) (Some this).

(** [prevAll (selector)]: [_.take(n.parent.children, index).reverse()];
    [_.take] of [null] is the empty array. *)
Definition Wrapper_prevAll (this : Wrapper) (selector : arg) (h : Overlay)
  : result Wrapper :=
  let selector := getSelector selector in
  let* ns := flatMapM (fun n =>
    let* index := Wrapper_index this (AValue VUndefined) h in
    if 0 <? index then
      let* nd := deref h (Some n) in
      let* pn := deref h (parent nd) in
      match children pn with
      | Some cs => Ok (map Some (reverse (take (Z.to_nat index) cs)))
      | None => Ok []
      end
    else Ok []) (nodes this) in
  dollar_filter this ns selector h.

(** ** Further properties of overlays *)


(** The text of a raw tree: the values of its leaves, left to right. *)
Fixpoint text (r : raw) : string :=
  match r with
  | Leaf _ v => v
  | Branch _ cs => foldr (λ c s, (text c ++ s)%string) EmptyString cs
  end.

(** Objects are older than their children and younger than their
    parent: identities grow in the order of construction. *)
Definition ordered (h : Overlay) : Prop :=
  (∀ p pn cs c, h !! p = Some pn → children pn = Some cs → c ∈ cs →
                (p < c)%nat) ∧
  (∀ n nd p, h !! n = Some nd → parent nd = Some p → (p < n)%nat).

(** The ancestors of a node, from its parent up to a node without
    parent. *)
Fixpoint ancestors (h : Overlay) (parent_ : option node_id)
    (l : list node_id) : Prop :=
  match l with
  | [] => parent_ = None
  | p :: l' =>
      parent_ = Some p ∧ ∃ nd, h !! p = Some nd ∧ ancestors h (parent nd) l'
  end.

(** The part of a list before its first element that satisfies [f]. *)
Fixpoint before_match {A} (f : A → bool) (l : list A) : list A :=
  match l with
  | [] => []
  | x :: l' => if f x then [] else x :: before_match f l'
  end.

(** ** Regular expressions as objects *)

(** A regular expression as [test] sees it.  [matcher s i] is the end of
    the match of the pattern that starts at the index [i] of [s], if
    there is one; [global] and [sticky] are the flags [g] and [y];
    [lastIndex] is the property that [test] reads and writes when one of
    the two flags is set. *)
Record RegExpObject : Type := mkRegExpObject {
  matcher : string → nat → option nat;
  global : bool;
  sticky : bool;
  lastIndex : nat
}.

(** The search of [RegExp.prototype.exec] without the [y] flag: a match
    is tried at [i], then at [i + 1], and so on for [steps] indexes. *)
Fixpoint search (m : string → nat → option nat) (s : string) (i : nat)
    (steps : nat) : option nat :=
  match steps with
  | O => None
  | S steps' =>
      match m s i with
      | Some e => Some e
      | None => search m s (S i) steps'
      end
  end.

(** [RegExp.prototype.test]: with [g] or [y] the search starts at
    [lastIndex], which is then set to the end of the match, or to [0]
    when there is none; without them it starts at [0] and [lastIndex] is
    left alone.  With [y] the match is tried at the start index only. *)
Definition RegExp_test (re : RegExpObject) (s : string) : bool * RegExpObject :=
  let flagged := global re || sticky re in
  let start := if flagged then lastIndex re else 0%nat in
  let found :=
    if (String.length s <? start)%nat then None
    else if sticky re then matcher re s start
    else search (matcher re) s start (S (String.length s - start)) in
  let set i := mkRegExpObject (matcher re) (global re) (sticky re) i in
  match found with
  | Some e => (true, if flagged then set e else re)
  | None => (false, if flagged then set 0%nat else re)
  end.

(** A regular expression with neither flag, as the selector it is:
    whether the pattern matches somewhere in the string. *)
Definition RegExp_of (re : RegExpObject) : RegExp :=
  mkRegExp (λ s,
    match search (matcher re) s 0 (S (String.length s)) with
    | Some _ => true
    | None => false
    end).

(** What [getSelector] returns for a regular expression,
    [(n) => selector.test(getType(n.node))], with the state of the one
    object [selector] before and after the call. *)
Definition getSelector_RegExp (selector : RegExpObject) (h : Overlay)
    (n : option node_id) : result bool * RegExpObject :=
  match deref h n with
  | Ok nd =>
      let '(b, selector') := RegExp_test selector (getType (node nd)) in
      (Ok b, selector')
  | Throw e => (Throw e, selector)
  | OutOfFuel => (OutOfFuel, selector)
  end.

(** [find (selector)] with a regular expression: the callback of
    [reduce] tests every node it visits with the one object, whose state
    passes from each test to the next, here beside the array that is
    accumulated; the selection comes with the state the object is left
    in. *)
Definition Wrapper_find_RegExp (fuel : nat) (this : Wrapper)
    (selector : RegExpObject) (h : Overlay) : result (Wrapper * RegExpObject) :=
  let* found :=
    reduceM (fun acc n =>
      let* a :=
        Node_reduce fuel h (fun a n =>
          match getSelector_RegExp (snd a) h (Some n) with
          | (Ok b, re) => Ok (if b then fst a ++ [n] else fst a, re)
          | (Throw e, _) => Throw e
          | (OutOfFuel, _) => OutOfFuel
          end) ([], snd acc) n in
      Ok (fst acc ++ fst a, snd a)) (nodes this) ([], selector) in
  let* w := new_Wrapper (VArray (map VNode (uniq (fst found)))) (Some this) in
  Ok (w, snd found).

(** The pattern [^item]: a match starts at the index [0] only and ends
    behind the four letters. *)
Definition item_matcher (s : string) (i : nat) : option nat :=
  if (i =? 0)%nat then (if String.prefix "item" s then Some 4%nat else None)
  else None.

(** [/^item/] and [/^item/g], with the [lastIndex] they are at. *)
Definition item_RegExp (g : bool) (lastIndex : nat) : RegExpObject :=
  mkRegExpObject item_matcher g false lastIndex.

(** ** What a mutation leaves of the older nodes *)

(** Every node of [h] is in [h'] with the raw node and the parent
    reference it had. *)
Definition parents_kept (h h' : Overlay) : Prop :=
  ∀ n nd, h !! n = Some nd →
    ∃ nd', h' !! n = Some nd' ∧ parent nd' = parent nd ∧ node nd' = node nd.

(** No children array holds [n]. *)
Definition detached (h : Overlay) (n : node_id) : Prop :=
  ∀ p pn cs, h !! p = Some pn → children pn = Some cs → n ∉ cs.

(** * Theorems *)

(** ** Basic facts *)

(** Induction over raw trees that reaches the children of a branch. *)
Lemma raw_ind' (P : raw → Prop) :
  (∀ t v, P (Leaf t v)) →
  (∀ t cs, Forall P cs → P (Branch t cs)) →
  ∀ r, P r.
Proof.
  intros HL HB.
  fix IH 1. intros [t v | t cs].
  - apply HL.
  - apply HB. induction cs as [| c cs IHcs]; constructor; [apply IH | exact IHcs].
Qed.

Lemma new_Node_Branch t cs p h :
  new_Node (Branch t cs) p h =
  let '(ids, h1) :=
    map_new_Node cs (length h) (h ++ [mkNode (Branch t cs) p None]) in
  (length h, <[length h := mkNode (Branch t cs) p (Some ids)]> h1).
Proof.
  cbn [new_Node].
  match goal with
  | |- (let '(_, _) := ?F cs ?h0 in _) = _ =>
      assert (E : ∀ l h1, F l h1 = map_new_Node l (length h) h1)
  end.
  { induction l as [| c l IH]; intros h1; cbn [map_new_Node]; try done.
    destruct (new_Node c (Some (length h)) h1) as [i h']. by rewrite IH. }
  by rewrite E.
Qed.

Lemma isInteger_spec v : isInteger v = true ↔ ∃ i, v = VNum (Int i).
Proof.
  split.
  - destruct v as [| | | [] | | | |]; try discriminate. eauto.
  - by intros [i ->].
Qed.

Lemma omap_as_node ns : omap as_node (map VNode ns) = ns.
Proof. induction ns as [| n ns IH]; [done |]. cbn. by rewrite IH. Qed.

Lemma forallb_isNode ns : forallb isNode (map VNode ns) = true.
Proof. induction ns as [| n ns IH]; [done |]. exact IH. Qed.

(** A selection can be made of any array of nodes. *)
Lemma new_Wrapper_nodes ns prev :
  new_Wrapper (VArray (map VNode ns)) prev = Ok (mkWrapper ns prev).
Proof.
  unfold new_Wrapper. cbn [truthy flatten flat_map]. rewrite app_nil_r.
  rewrite forallb_isNode. cbn. by rewrite omap_as_node.
Qed.

Lemma new_Wrapper_node n prev :
  new_Wrapper (VNode n) prev = Ok (mkWrapper [n] prev).
Proof. reflexivity. Qed.

(** ** The query function *)

(** C10. The query function sends every falsy argument, and not the
    absent one alone, to the root: called with 0, the empty string, false
    or null it returns the whole-tree root selection, the nodes it returns
    without an argument. *)
Theorem query_falsy_is_root (v : value) (Hv : truthy v = false) :
  query v = Ok root_selection ∧ query v = query VUndefined ∧
  Forall (λ u, truthy u = false ∧ query u = Ok root_selection)
    [VNum (Int 0); VStr EmptyString; VBool false; VNull].
Proof.
  assert (E : ∀ u, truthy u = false → query u = Ok root_selection).
  { intros u Hu. unfold query, new_Wrapper. by rewrite Hu. }
  split; [by apply E |]. split; [by rewrite !E |].
  repeat constructor.
Qed.

Lemma query_falsy_is_root_witness :
  truthy (VNum NaN) = false ∧ query (VNum NaN) = Ok root_selection.
Proof.
  split; [reflexivity |].
  apply (query_falsy_is_root (VNum NaN)). reflexivity.
Defined.

(** C4, as the code has it.  Without an argument the query function
    returns the root selection; given a [Node] or an array of [Node]s it
    returns the selection of exactly those nodes; given a raw node, or an
    array that holds one, it throws: raw nodes are not wrapped. *)
Theorem query_accepts_nodes_only :
  query VUndefined = Ok root_selection ∧
  (∀ n, query (VNode n) = Ok (mkWrapper [n] None)) ∧
  (∀ ns, query (VArray (map VNode ns)) = Ok (mkWrapper ns None)) ∧
  (∀ r, query (VObject r) = Throw not_a_node) ∧
  (∀ r l1 l2, query (VArray (l1 ++ VObject r :: l2)) = Throw not_a_node).
Proof.
  split; [reflexivity |]. split; [reflexivity |].
  split; [intros ns; apply new_Wrapper_nodes |].
  split; [reflexivity |].
  intros r l1 l2. unfold query, new_Wrapper.
  cbn [truthy flatten flat_map]. rewrite app_nil_r.
  replace (forallb isNode (l1 ++ VObject r :: l2)) with false; [done |].
  symmetry. apply not_true_is_false. rewrite forallb_forall.
  intros H. specialize (H (VObject r)). cbn in H.
  assert (false = true); [| done].
  apply H. apply in_or_app. right. by left.
Qed.

(** C4 as stated fails: a raw node handed to the query function is not
    wrapped into a selection, the call throws. *)
Lemma query_raw_node_throws :
  query (VObject (item "z")) = Throw not_a_node ∧
  query (VArray [VObject (item "y"); VObject (item "z")]) = Throw not_a_node ∧
  ¬ ∃ w, query (VObject (item "z")) = Ok w.
Proof.
  split; [reflexivity |]. split; [reflexivity |].
  intros [w Hw]. discriminate Hw.
Qed.

(** ** [eq] *)

(** C7. [eq] with an argument that is not an integer, the absent one
    included, throws the invariant error; with an integer in range it
    gives the selection of the one node at that index; with an integer out
    of range it gives a selection of length 0 and throws nothing. *)
Theorem eq_spec (this : Wrapper) (index : value) :
  (isInteger index = false →
   Wrapper_eq this index = Throw (Invariant "eq() requires an index")) ∧
  (∀ i n, index = VNum (Int i) → 0 ≤ i → nodes this !! Z.to_nat i = Some n →
   Wrapper_eq this index = Ok (mkWrapper [n] (Some this))) ∧
  (∀ i, index = VNum (Int i) → i < 0 ∨ Wrapper_length this ≤ i →
   Wrapper_eq this index = Ok (mkWrapper [] (Some this)) ∧
   Wrapper_length (mkWrapper [] (Some this)) = 0).
Proof.
  split; [| split].
  - intros Hi. unfold Wrapper_eq. by rewrite Hi.
  - intros i n -> Hi Hn. unfold Wrapper_eq, nodes_at, at_index. cbn.
    destruct (Z.ltb_spec i 0); [lia |]. by rewrite Hn.
  - intros i -> Hi. split; [| reflexivity].
    unfold Wrapper_eq, nodes_at, at_index. cbn.
    destruct (Z.ltb_spec i 0); [done |].
    destruct Hi as [Hi | Hi]; [lia |].
    unfold Wrapper_length in Hi.
    rewrite (lookup_ge_None_2 (nodes this) (Z.to_nat i)); [done | lia].
Qed.

Lemma eq_spec_witness :
  let this := mkWrapper [4; 7; 9]%nat None in
  Wrapper_eq this VUndefined = Throw (Invariant "eq() requires an index") ∧
  Wrapper_eq this (VStr "1") = Throw (Invariant "eq() requires an index") ∧
  Wrapper_eq this (VNum (Int 1)) = Ok (mkWrapper [7%nat] (Some this)) ∧
  Wrapper_eq this (VNum (Int 3)) = Ok (mkWrapper [] (Some this)) ∧
  Wrapper_eq this (VNum (Int (-1))) = Ok (mkWrapper [] (Some this)).
Proof.
  intros this.
  split; [apply (eq_spec this VUndefined); reflexivity |].
  split; [apply (eq_spec this (VStr "1")); reflexivity |].
  split; [apply (eq_spec this (VNum (Int 1))) with (i := 1); [reflexivity | lia | reflexivity] |].
  split.
  - apply (eq_spec this (VNum (Int 3))) with (i := 3); [reflexivity |].
    right. unfold Wrapper_length. cbn. lia.
  - apply (eq_spec this (VNum (Int (-1)))) with (i := -1); [reflexivity |].
    left. lia.
Defined.

(** ** Selectors *)

(** [getSelector] yields a predicate for every argument that keeps no
    state.  A string gives the predicate that holds of a node exactly
    when the type of its raw node is that string; a regular expression
    without the flags [g] and [y] gives the predicate that holds exactly
    when the expression matches that type; a function is the predicate
    itself; every other argument gives the predicate that always
    holds. *)
Lemma getSelector_spec :
  (∀ s h n nd, h !! n = Some nd →
     getSelector (AValue (VStr s)) h (Some n)
       = Ok (bool_decide (getType (node nd) = s))) ∧
  (∀ re h n nd, h !! n = Some nd →
     getSelector (ARegExp re) h (Some n) = Ok (test re (getType (node nd)))) ∧
  (∀ f, getSelector (AFunction f) = λ h n, Ok (f h n)) ∧
  (∀ v, (∀ s, v ≠ VStr s) → getSelector (AValue v) = λ _ _, Ok true).
Proof.
  split; [| split; [| split]].
  - intros s h n nd Hn. cbn. rewrite Hn. cbn. f_equal.
    destruct (String.eqb_spec (getType (node nd)) s) as [E | E].
    + by rewrite bool_decide_eq_true_2.
    + by rewrite bool_decide_eq_false_2.
  - intros re h n nd Hn. cbn. by rewrite Hn.
  - reflexivity.
  - intros v Hv. destruct v; try reflexivity. by destruct (Hv s).
Qed.

Lemma getSelector_spec_witness :
  let is_item := mkRegExp (String.prefix "item") in
  getSelector (AValue (VStr "item")) readme_overlay (Some 2%nat) = Ok true ∧
  getSelector (AValue (VStr "item")) readme_overlay (Some 1%nat) = Ok false ∧
  getSelector (ARegExp is_item) readme_overlay (Some 1%nat) = Ok true ∧
  getSelector (AValue VNull) = (λ _ _, Ok true) ∧
  getSelector (AValue (VNum (Int 3))) = (λ _ _, Ok true).
Proof.
  intros is_item.
  destruct getSelector_spec as (Hs & Hr & _ & Ho).
  split; [exact (Hs "item" readme_overlay 2%nat _ eq_refl) |].
  split; [exact (Hs "item" readme_overlay 1%nat _ eq_refl) |].
  split; [exact (Hr is_item readme_overlay 1%nat _ eq_refl) |].
  split; apply Ho; intros s; discriminate.
Defined.

(** ** Regular expressions with a flag *)

Lemma RegExp_test_without_flags m i s :
  RegExp_test (mkRegExpObject m false false i) s
  = (test (RegExp_of (mkRegExpObject m false false i)) s,
     mkRegExpObject m false false i).
Proof.
  unfold RegExp_test, RegExp_of. cbn [global sticky orb matcher test Nat.ltb Nat.leb].
  rewrite Nat.sub_0_r.
  by destruct (search m s 0 (S (String.length s))).
Qed.

(** C8.  The predicate that [getSelector] returns for a regular
    expression calls [test] of the one object at every node.  For an
    expression without the flags [g] and [y] this is the predicate that
    holds exactly when the pattern matches the type of the raw node, and
    the object stays as it is.  With the flag [g] the object keeps
    [lastIndex] between the calls: [/^item/g] holds of the item [a] at
    the first call and fails on the same node at the second, though the
    pattern matches its type; [find] from the root with it returns [a]
    and the second container, where the pattern matches the types of
    both containers and of both items. *)
Theorem getSelector_regexp_keeps_lastIndex :
  (∀ m i h n,
     let re := mkRegExpObject m false false i in
     getSelector_RegExp re h n = (getSelector (ARegExp (RegExp_of re)) h n, re)) ∧
  Forall (λ n, getSelector (ARegExp (RegExp_of (item_RegExp true 0)))
                 readme_overlay (Some n) = Ok true) [1; 2; 3; 4]%nat ∧
  getSelector_RegExp (item_RegExp true 0) readme_overlay (Some 2%nat)
    = (Ok true, item_RegExp true 4) ∧
  getSelector_RegExp (item_RegExp true 4) readme_overlay (Some 2%nat)
    = (Ok false, item_RegExp true 0) ∧
  Wrapper_find_RegExp 3 root_selection (item_RegExp true 0) readme_overlay
    = Ok (mkWrapper [2; 3]%nat (Some root_selection), item_RegExp true 0) ∧
  Wrapper_find_RegExp 3 root_selection (item_RegExp false 0) readme_overlay
    = Ok (mkWrapper [2; 1; 3; 4]%nat (Some root_selection), item_RegExp false 0) ∧
  Wrapper_find 3 root_selection (ARegExp (RegExp_of (item_RegExp true 0)))
    readme_overlay
    = Ok (mkWrapper [2; 1; 3; 4]%nat (Some root_selection)).
Proof.
  split.
  { intros m i h n re. unfold getSelector_RegExp. cbn [getSelector].
    destruct (deref h n) as [nd | e |]; cbn [rbind]; try reflexivity.
    subst re. by rewrite RegExp_test_without_flags. }
  split; [repeat constructor |].
  repeat split; vm_compute; reflexivity.
Qed.

(** ** Mutating a selection that holds the root *)

(** On any overlay, the loop bodies throw on a node that has no parent,
    while they read [p.hasChildren], and leave the overlay as it was. *)
Lemma bodies_throw_without_parent n h nd a fn :
  h !! n = Some nd → parent nd = None →
  after_body a n h = (Throw TypeError, h) ∧
  before_body a n h = (Throw TypeError, h) ∧
  remove_body n h = (Throw TypeError, h) ∧
  replace_body fn n h = (Throw TypeError, h).
Proof.
  intros Hn Hp.
  unfold after_body, before_body, remove_body, replace_body, bind, parent_of, read.
  cbn. rewrite Hn. cbn. by rewrite Hp.
Qed.

(** C2, as the code has it.  On every overlay, [after], [before] and
    [remove] on a selection whose first node has no parent throw a
    [TypeError] and leave the overlay as it was: the node is not
    skipped. *)
Theorem mutation_on_root_throws (this : Wrapper) (a : node_arg) (h : Overlay)
    (n : node_id) (nd : Node)
    (Hfirst : head (nodes this) = Some n)
    (Hn : h !! n = Some nd) (Hroot : parent nd = None) :
  Wrapper_after this a h = (Throw TypeError, h) ∧
  Wrapper_before this a h = (Throw TypeError, h) ∧
  Wrapper_remove this h = (Throw TypeError, h).
Proof.
  destruct this as [[| m ns] prev]; [discriminate Hfirst |].
  cbn in Hfirst. injection Hfirst as ->.
  destruct (bodies_throw_without_parent n h nd a (λ _ _, a) Hn Hroot)
    as (Ha & Hb & Hr & _).
  unfold Wrapper_after, Wrapper_before, Wrapper_remove.
  cbn [nodes for_of]. unfold bind at 1 3 5. unfold bind at 1 2 3.
  by rewrite Ha, Hb, Hr.
Qed.

(** On the overlay of three siblings: the selection of the root alone,
    and a selection that holds the root behind another node, which is
    changed for that node before the call throws. *)
Lemma mutation_on_root_throws_witness :
  fst (Wrapper_after root_selection (Raw (item "z")) abc_overlay) = Throw TypeError ∧
  fst (Wrapper_before root_selection (Raw (item "z")) abc_overlay) = Throw TypeError ∧
  fst (Wrapper_remove root_selection abc_overlay) = Throw TypeError ∧
  fst (Wrapper_remove (mkWrapper [2; 0]%nat None) abc_overlay) = Throw TypeError ∧
  Node_children (snd (Wrapper_remove (mkWrapper [2; 0]%nat None) abc_overlay))
    (Some ROOT) = Ok [1; 3]%nat.
Proof.
  destruct (mutation_on_root_throws root_selection (Raw (item "z")) abc_overlay
              ROOT _ eq_refl eq_refl eq_refl) as (Ha & Hb & Hr).
  split; [by rewrite Ha |]. split; [by rewrite Hb |]. split; [by rewrite Hr |].
  split; reflexivity.
Defined.

(** ** Siblings *)

(** C3, evaluated.  On the three children [a], [b], [c] of one node,
    [next] gives [b] three times and [prev] gives nothing: the index
    used for every node is the sibling index of the first node of the
    selection. *)
Theorem next_prev_use_first_index :
  let siblings := mkWrapper [1; 2; 3]%nat (Some root_selection) in
  Wrapper_children root_selection (AValue VUndefined) abc_overlay = Ok siblings ∧
  Wrapper_next siblings (AValue VUndefined) abc_overlay
    = Ok (mkWrapper [2; 2; 2]%nat (Some siblings)) ∧
  Wrapper_prev siblings (AValue VUndefined) abc_overlay
    = Ok (mkWrapper [] (Some siblings)) ∧
  Wrapper_prev (mkWrapper [3; 2]%nat None) (AValue VUndefined) abc_overlay
    = Ok (mkWrapper [2; 2]%nat (Some (mkWrapper [3; 2]%nat None))).
Proof. repeat split; vm_compute; reflexivity. Qed.

(** On a selection of one node, [next] and [prev] do give its
    neighbours. *)
Lemma next_prev_single :
  let b := mkWrapper [2%nat] None in
  Wrapper_next b (AValue VUndefined) abc_overlay = Ok (mkWrapper [3%nat] (Some b)) ∧
  Wrapper_prev b (AValue VUndefined) abc_overlay = Ok (mkWrapper [1%nat] (Some b)) ∧
  Wrapper_next (mkWrapper [3%nat] None) (AValue VUndefined) abc_overlay
    = Ok (mkWrapper [] (Some (mkWrapper [3%nat] None))) ∧
  Wrapper_prev root_selection (AValue VUndefined) abc_overlay
    = Ok (mkWrapper [] (Some root_selection)).
Proof. repeat split; vm_compute; reflexivity. Qed.

(** ** What the constructor builds *)

Lemma represents_Leaf h n t v :
  represents h n (Leaf t v) ↔ ∃ p, h !! n = Some (mkNode (Leaf t v) p None).
Proof. reflexivity. Qed.

Lemma represents_Branch h n t cs :
  represents h n (Branch t cs) ↔
  ∃ cs0 p ids,
    h !! n = Some (mkNode (Branch t cs0) p (Some ids)) ∧
    Forall2 (represents h) ids cs.
Proof.
  cbn [represents].
  match goal with
  | |- (∃ cs0 p ids, _ ∧ ?F ids cs) ↔ _ =>
      assert (E : ∀ l ids, F ids l ↔ Forall2 (represents h) ids l)
  end.
  { induction l as [| c l IH]; intros [| i ids]; split; try done.
    - inversion 1.
    - inversion 1.
    - intros [Hc Hl]. constructor; [done | by apply IH].
    - inversion 1; subst. split; [done | by apply IH]. }
  split; intros (cs0 & p & ids & Hn & Hcs); exists cs0, p, ids;
    (split; [done | by apply E]).
Qed.

(** Objects are never taken out of the arena: what a node spells stays
    as it is when more objects are allocated. *)
Lemma represents_mono h h' n r :
  h `prefix_of` h' → represents h n r → represents h' n r.
Proof.
  intros Hpre. revert n. induction r as [t v | t cs IH] using raw_ind'; intros n.
  - rewrite !represents_Leaf. intros [p Hn]. exists p.
    by eapply prefix_lookup_Some.
  - rewrite !represents_Branch. intros (cs0 & p & ids & Hn & Hcs).
    exists cs0, p, ids. split; [by eapply prefix_lookup_Some |].
    clear Hn. induction Hcs as [| i c ids cs Hi Hcs IHcs]; [constructor |].
    inversion IH; subst. constructor; [by auto | by apply IHcs].
Qed.

(** [new Node(r, p)] allocates the node at the end of the arena, with the
    nodes of its subtree behind it, and touches no older object.  What
    it allocates spells [r] whatever the older objects are. *)
Lemma new_Node_shape r :
  ∀ p h, ∃ nd ext,
    new_Node r p h = (length h, h ++ nd :: ext) ∧
    node nd = r ∧ parent nd = p ∧
    ∀ pre, length pre = length h → represents (pre ++ nd :: ext) (length h) r.
Proof.
  induction r as [t v | t cs IH] using raw_ind'; intros p h.
  - exists (mkNode (Leaf t v) p None), []. cbn [new_Node].
    repeat split. intros pre Hpre. apply represents_Leaf. exists p.
    rewrite <- Hpre. by rewrite list_lookup_middle.
  - rewrite new_Node_Branch.
    assert (Hmap : ∀ this h0, ∃ ids ext,
      map_new_Node cs this h0 = (ids, h0 ++ ext) ∧
      ∀ pre, length pre = length h0 → Forall2 (represents (pre ++ ext)) ids cs).
    { clear p h. induction IH as [| c cs Hc _ IHcs]; intros this h0.
      - exists [], []. cbn. rewrite app_nil_r. split; [done |]. constructor.
      - cbn [map_new_Node].
        destruct (Hc (Some this) h0) as (nd & e1 & -> & _ & _ & Hrep).
        destruct (IHcs this (h0 ++ nd :: e1)) as (ids & e2 & -> & Hreps).
        exists (length h0 :: ids), ((nd :: e1) ++ e2).
        split; [by rewrite app_assoc |].
        intros pre Hpre. constructor.
        + apply represents_mono with (pre ++ nd :: e1).
          * rewrite app_assoc. by apply prefix_app_r.
          * by apply Hrep.
        + rewrite app_assoc. apply Hreps. rewrite !length_app. by rewrite Hpre. }
    destruct (Hmap (length h) (h ++ [mkNode (Branch t cs) p None]))
      as (ids & ext & -> & Hreps).
    exists (mkNode (Branch t cs) p (Some ids)), ext.
    split.
    { f_equal. rewrite <- app_assoc. cbn.
      rewrite insert_app_r_alt; [| lia]. by rewrite Nat.sub_diag. }
    repeat split. intros pre Hpre. apply represents_Branch.
    exists cs, p, ids. split.
    + rewrite <- Hpre. by rewrite list_lookup_middle.
    + specialize (Hreps (pre ++ [mkNode (Branch t cs) p (Some ids)])).
      rewrite <- app_assoc in Hreps. apply Hreps.
      rewrite !length_app. cbn. by rewrite Hpre.
Qed.

Lemma new_Node_represents r p h :
  represents (snd (new_Node r p h)) (fst (new_Node r p h)) r.
Proof.
  destruct (new_Node_shape r p h) as (nd & ext & -> & _ & _ & Hrep).
  by apply Hrep.
Qed.

Lemma mapM_Ok {A B} (fn : A → result B) l l' :
  Forall2 (λ x y, fn x = Ok y) l l' → mapM fn l = Ok l'.
Proof.
  induction 1 as [| x y l l' Hx _ IH]; [done |].
  cbn. rewrite Hx. cbn. by rewrite IH.
Qed.

Lemma height_child t cs c : c ∈ cs → (height c < height (Branch t cs))%nat.
Proof.
  cbn [height]. induction cs as [| c' cs IH]; [by inversion 1 |].
  inversion 1; subst; cbn; [lia |].
  specialize (IH ltac:(done)). lia.
Qed.

(** Serializing a node gives back the raw tree that the overlay spells
    below it, once the budget covers the height of the tree. *)
Lemma Node_toJSON_represents h r :
  ∀ n fuel, represents h n r → (height r ≤ fuel)%nat →
  Node_toJSON fuel h n = Ok r.
Proof.
  induction r as [t v | t cs IH] using raw_ind'; intros n fuel Hrep Hfuel.
  - destruct fuel as [| fuel]; [cbn in Hfuel; lia |].
    apply represents_Leaf in Hrep as [p Hn]. cbn. by rewrite Hn.
  - destruct fuel as [| fuel]; [cbn in Hfuel; lia |].
    apply represents_Branch in Hrep as (cs0 & p & ids & Hn & Hcs).
    cbn [Node_toJSON]. unfold Node_children, deref. rewrite Hn. cbn.
    rewrite (mapM_Ok _ ids cs); [done |].
    assert (Hh : ∀ c, c ∈ cs → (height c ≤ fuel)%nat).
    { intros c Hc. pose proof (height_child t cs c Hc). lia. }
    clear Hn Hfuel. induction Hcs as [| i c ids cs Hi Hcs IHcs]; [constructor |].
    inversion IH; subst. constructor.
    + apply H1; [done |]. apply Hh. by left.
    + apply IHcs; [done |]. intros c' Hc'. apply Hh. by right.
Qed.

(** ** Reading a selection back *)

(** In the default format the normal form of a tree is the tree. *)
Lemma normalize_id r : normalize r = r.
Proof.
  induction r as [t v | t cs IH] using raw_ind'; [done |].
  cbn. f_equal. induction IH as [| c cs Hc _ IHcs]; [done |].
  cbn. by rewrite Hc, IHcs.
Qed.

Lemma createQuery_plain r :
  createQuery (VObject r) = Ok (snd (new_Node r None [])).
Proof. reflexivity. Qed.

Lemma createQuery_ROOT r : fst (new_Node r None []) = ROOT.
Proof. by destruct (new_Node_shape r None []) as (nd & ext & -> & _). Qed.

(** C6, as the code has it.  On the overlay of a tree that no call has
    changed, [get()] on the root selection returns a sequence of one
    element, and that element, which [get(0)] returns by itself, is the
    normal form of the raw tree, here the tree itself. *)
Theorem get_round_trip (r : raw) (fuel : nat) (Hfuel : (height r ≤ fuel)%nat) :
  ∃ h, createQuery (VObject r) = Ok h ∧
       Wrapper_get fuel root_selection VUndefined h
         = Ok (VArray [VObject (normalize r)]) ∧
       Wrapper_get fuel root_selection (VNum (Int 0)) h
         = Ok (VObject (normalize r)) ∧
       normalize r = r.
Proof.
  exists (snd (new_Node r None [])). split; [reflexivity |].
  pose proof (new_Node_represents r None []) as Hrep.
  rewrite createQuery_ROOT in Hrep.
  pose proof (Node_toJSON_represents _ _ _ fuel Hrep Hfuel) as HJ.
  rewrite normalize_id. unfold Wrapper_get, at_index. cbn.
  change (Z.to_nat 0) with 0%nat. cbn. by rewrite HJ.
Qed.

Lemma get_round_trip_witness :
  ∃ h, createQuery (VObject readme_ast) = Ok h ∧
       Wrapper_get 3 root_selection VUndefined h
         = Ok (VArray [VObject (normalize readme_ast)]) ∧
       Wrapper_get 3 root_selection (VNum (Int 0)) h
         = Ok (VObject (normalize readme_ast)) ∧
       normalize readme_ast = readme_ast.
Proof. apply (get_round_trip readme_ast 3). cbn. lia. Defined.

(** C6 as stated fails: what [get()] returns on the root selection is
    not the tree but a sequence that holds it. *)
Lemma get_returns_a_sequence :
  createQuery (VObject abc_ast) = Ok abc_overlay ∧
  Wrapper_get 2 root_selection VUndefined abc_overlay
    = Ok (VArray [VObject abc_ast]) ∧
  ∀ fuel, Wrapper_get fuel root_selection VUndefined abc_overlay
            ≠ Ok (VObject (normalize abc_ast)).
Proof.
  split; [reflexivity |]. split; [reflexivity |].
  intros fuel. unfold Wrapper_get.
  destruct (mapM (Node_toJSON fuel abc_overlay) (nodes root_selection));
    cbn; discriminate.
Qed.

(** C9. [get] with an argument that is not an integer does what [get]
    without an argument does: it returns the array of the JSON of every
    node of the selection, whatever the argument is. *)
Theorem get_non_integer (fuel : nat) (this : Wrapper) (v : value) (h : Overlay)
    (Hv : isInteger v = false) :
  Wrapper_get fuel this v h = Wrapper_get fuel this VUndefined h ∧
  ∀ rs, Forall2 (represents h) (nodes this) rs →
        Forall (λ r, (height r ≤ fuel)%nat) rs →
        Wrapper_get fuel this v h = Ok (VArray (map VObject rs)).
Proof.
  assert (E : Wrapper_get fuel this v h = Wrapper_get fuel this VUndefined h).
  { destruct v as [| | | [] | | | |]; try reflexivity. discriminate Hv. }
  split; [exact E |].
  intros rs Hrs Hfuel. rewrite E. unfold Wrapper_get.
  rewrite (mapM_Ok _ (nodes this) rs); [done |].
  induction Hrs as [| n r ns rs Hn _ IH]; [constructor |].
  inversion Hfuel; subst. constructor; [| by apply IH].
  by apply Node_toJSON_represents.
Qed.

Lemma get_non_integer_witness :
  let items := mkWrapper [2; 4]%nat None in
  Wrapper_get 1 items (VStr "1") readme_overlay
    = Ok (VArray [VObject (item "a"); VObject (item "b")]) ∧
  Wrapper_get 1 items VNull readme_overlay
    = Wrapper_get 1 items VUndefined readme_overlay ∧
  Wrapper_get 1 items (VNum (Fraction 1 2)) readme_overlay
    = Wrapper_get 1 items VUndefined readme_overlay.
Proof.
  intros items. split; [| split].
  - apply (proj2 (get_non_integer 1 items (VStr "1") readme_overlay eq_refl)
             [item "a"; item "b"]).
    + constructor; [by exists (Some 1%nat) |].
      constructor; [by exists (Some 0%nat) | constructor].
    + constructor; [cbn; lia |]. constructor; [cbn; lia | constructor].
  - apply (proj1 (get_non_integer 1 items VNull readme_overlay eq_refl)).
  - apply (proj1 (get_non_integer 1 items (VNum (Fraction 1 2)) readme_overlay
                    eq_refl)).
Defined.

(** ** [find] *)

Lemma reduceM_app {A B} (fn : A → B → result A) l1 l2 acc :
  reduceM fn (l1 ++ l2) acc = (let* a := reduceM fn l1 acc in reduceM fn l2 a).
Proof.
  revert acc. induction l1 as [| x l1 IH]; intros acc; [done |].
  cbn. destruct (fn acc x); cbn; [apply IH | done | done].
Qed.

Lemma postorder_S fuel h n : postorder (S fuel) h n = descendants fuel h n ++ [n].
Proof.
  unfold descendants. cbn [postorder].
  destruct (h !! n) as [[r p [cs |]] |]; reflexivity.
Qed.

(** [Node.reduce] applies [fn] along the post-order of the subtree, the
    node itself last. *)
Lemma Node_reduce_postorder {A} h r (fn : A → node_id → result A) :
  ∀ n fuel acc, represents h n r → (height r ≤ fuel)%nat →
  Node_reduce fuel h fn acc n = reduceM fn (postorder fuel h n) acc.
Proof.
  induction r as [t v | t cs IH] using raw_ind'; intros n fuel acc Hrep Hfuel.
  - destruct fuel as [| fuel]; [cbn in Hfuel; lia |].
    apply represents_Leaf in Hrep as [p Hn]. cbn. rewrite Hn. cbn.
    by destruct (fn acc n).
  - destruct fuel as [| fuel]; [cbn in Hfuel; lia |].
    apply represents_Branch in Hrep as (cs0 & p & ids & Hn & Hcs).
    cbn [Node_reduce postorder]. unfold Node_children, deref. rewrite Hn. cbn.
    rewrite reduceM_app. cbn.
    assert (Hh : ∀ c, c ∈ cs → (height c ≤ fuel)%nat).
    { intros c Hc. pose proof (height_child t cs c Hc). lia. }
    assert (E : ∀ a, reduceM (Node_reduce fuel h fn) ids a
                     = reduceM fn (flat_map (postorder fuel h) ids) a).
    { clear Hn Hfuel. induction Hcs as [| i c ids cs Hi Hcs IHcs]; intros a; [done |].
      inversion IH; subst. cbn. rewrite reduceM_app.
      rewrite (H1 i fuel a Hi); [| apply Hh; by left].
      destruct (reduceM fn (postorder fuel h i) a); cbn; try done.
      apply IHcs; [done |]. intros c' Hc'. apply Hh. by right. }
    rewrite E. destruct (reduceM fn _ acc); cbn; [| done | done].
    by destruct (fn a n).
Qed.

(** The nodes that a post-order walk visits are objects of the arena. *)
Lemma postorder_valid h r :
  ∀ n fuel, represents h n r → Forall (λ m, is_Some (h !! m)) (postorder fuel h n).
Proof.
  induction r as [t v | t cs IH] using raw_ind'; intros n fuel Hrep.
  - destruct fuel as [| fuel]; [constructor |].
    apply represents_Leaf in Hrep as [p Hn]. cbn. rewrite Hn.
    constructor; [by eexists | constructor].
  - destruct fuel as [| fuel]; [constructor |].
    apply represents_Branch in Hrep as (cs0 & p & ids & Hn & Hcs).
    cbn. rewrite Hn. apply Forall_app. split; [| constructor; [by eexists | constructor]].
    clear Hn. induction Hcs as [| i c ids cs Hi Hcs IHcs]; [constructor |].
    inversion IH; subst. cbn. apply Forall_app. split; [by apply H1 | by apply IHcs].
Qed.

Lemma elem_of_uniq_from seen l x :
  x ∈ uniq_from seen l ↔ x ∈ l ∧ x ∉ seen.
Proof.
  revert seen. induction l as [| y l IH]; intros seen; cbn.
  - split; [by inversion 1 | intros [H _]; by inversion H].
  - case_bool_decide as Hy.
    + rewrite IH. split.
      * intros [H1 H2]. split; [by right | done].
      * intros [H1 H2]. split; [| done].
        inversion H1; subst; [done | done].
    + rewrite elem_of_cons. rewrite IH. rewrite (elem_of_cons l).
      rewrite not_elem_of_cons.
      destruct (decide (x = y)) as [-> | Hne]; intuition congruence.
Qed.

Lemma elem_of_uniq l x : x ∈ uniq l ↔ x ∈ l.
Proof.
  unfold uniq. rewrite elem_of_uniq_from. split; [by intros [H _] |].
  intros H. split; [done |]. by inversion 1.
Qed.

Lemma NoDup_uniq_from seen l : NoDup (uniq_from seen l).
Proof.
  revert seen. induction l as [| y l IH]; intros seen; cbn; [constructor |].
  case_bool_decide; [apply IH |]. constructor; [| apply IH].
  rewrite elem_of_uniq_from. intros [_ H']. apply H'. by left.
Qed.

Lemma getSelector_Ok selector h n :
  is_Some (h !! n) → getSelector selector h (Some n) = Ok (matches selector h n).
Proof.
  intros [nd Hn]. unfold matches.
  destruct selector as [[] | |]; cbn; rewrite ?Hn; reflexivity.
Qed.

Lemma collect_matches selector h l acc :
  Forall (λ m, is_Some (h !! m)) l →
  reduceM (λ a n, let* b := getSelector selector h (Some n) in
                  Ok (if b then a ++ [n] else a)) l acc
  = Ok (acc ++ List.filter (matches selector h) l).
Proof.
  intros Hl. revert acc. induction Hl as [| m l Hm _ IH]; intros acc; cbn.
  - by rewrite app_nil_r.
  - rewrite (getSelector_Ok _ _ _ Hm). cbn. rewrite IH.
    destruct (matches selector h m); [| done]. by rewrite <- app_assoc.
Qed.

(** C1, as the code has it.  On a selection whose nodes head well-formed
    subtrees, [find] returns, in selection order and without repeats, the
    nodes of the post-order walk from each node that satisfy the
    selector; the walk ends with the node itself, so a node of the
    selection that satisfies the selector is part of the result. *)
Theorem find_walks_the_node_itself (fuel : nat) (this : Wrapper) (selector : arg)
    (h : Overlay) (rs : list raw)
    (Hrs : Forall2 (represents h) (nodes this) rs)
    (Hfuel : Forall (λ r, (height r ≤ fuel)%nat) rs) :
  let found :=
    uniq (flat_map (λ n, List.filter (matches selector h) (postorder fuel h n))
            (nodes this)) in
  Wrapper_find fuel this selector h = Ok (mkWrapper found (Some this)) ∧
  ∀ n, n ∈ nodes this → matches selector h n = true → n ∈ found.
Proof.
  intros found. split.
  - unfold Wrapper_find, flatMapM.
    rewrite (mapM_Ok _ (nodes this)
               (map (λ n, List.filter (matches selector h) (postorder fuel h n))
                  (nodes this))).
    + cbn. rewrite new_Wrapper_nodes. unfold found.
      by rewrite flat_map_concat_map.
    + clear found. induction Hrs as [| n r ns rs Hn _ IH]; [constructor |].
      inversion Hfuel; subst. cbn. constructor; [| by apply IH].
      rewrite (Node_reduce_postorder h r); [| done | done].
      rewrite collect_matches; [done |]. by eapply postorder_valid.
  - intros n Hn Hm. unfold found. apply elem_of_uniq.
    apply list_elem_of_In, in_flat_map. exists n.
    split; [by apply list_elem_of_In |].
    apply filter_In. split; [| done].
    apply list_elem_of_lookup in Hn as [k Hk].
    destruct (Forall2_lookup_l _ _ _ _ _ Hrs Hk) as (r & Hr & Hrep).
    assert (Hh : (height r ≤ fuel)%nat).
    { rewrite Forall_forall in Hfuel. apply Hfuel.
      apply list_elem_of_lookup. by exists k. }
    destruct fuel as [| fuel]; [destruct r; cbn in Hh; lia |].
    rewrite postorder_S. apply in_or_app. right. by left.
Qed.

Lemma find_walks_the_node_itself_witness :
  Wrapper_find 3 root_selection (AValue VUndefined) readme_overlay
    = Ok (mkWrapper [2; 1; 3; 4; 0]%nat (Some root_selection)) ∧
  descendants 3 readme_overlay ROOT = [2; 1; 3; 4]%nat ∧
  Wrapper_find 3 root_selection (AValue (VStr "program")) readme_overlay
    = Ok (mkWrapper [ROOT] (Some root_selection)).
Proof.
  assert (Hrs : Forall2 (represents readme_overlay) (nodes root_selection)
                  [readme_ast]).
  { constructor; [apply (new_Node_represents readme_ast None []) | constructor]. }
  assert (Hfuel : Forall (λ r, (height r ≤ 3)%nat) [readme_ast]).
  { constructor; [cbn; lia | constructor]. }
  split; [| split].
  - exact (proj1 (find_walks_the_node_itself 3 root_selection (AValue VUndefined)
                    readme_overlay [readme_ast] Hrs Hfuel)).
  - reflexivity.
  - exact (proj1 (find_walks_the_node_itself 3 root_selection
                    (AValue (VStr "program")) readme_overlay [readme_ast]
                    Hrs Hfuel)).
Defined.

(** ** Consistency of parents and children *)

Lemma new_Node_prefix r p h : h `prefix_of` snd (new_Node r p h).
Proof.
  destruct (new_Node_shape r p h) as (nd & ext & -> & _). by apply prefix_app_r.
Qed.

Lemma lookup_lt_length (h : Overlay) n nd : h !! n = Some nd → (n < length h)%nat.
Proof. intros H. by eapply lookup_lt_Some. Qed.

(** Allocating an object without children keeps the overlay consistent. *)
Lemma consistent_snoc h nd :
  children nd = None → children_consistent h → children_consistent (h ++ [nd]).
Proof.
  intros Hnd Hcc p pn cs Hp Hcs.
  destruct (decide (p < length h)%nat) as [Hlt | Hge].
  - rewrite lookup_app_l in Hp by done.
    destruct (Hcc p pn cs Hp Hcs) as (Hhc & Hnodup & Hmem).
    split; [done |]. split; [done |].
    intros c Hc. destruct (Hmem c Hc) as (cn & Hcn & Hpar).
    exists cn. split; [| done]. by apply lookup_app_l_Some.
  - rewrite lookup_app_r in Hp by lia.
    destruct (p - length h)%nat; cbn in Hp; [| done].
    injection Hp as <-. congruence.
Qed.

Lemma attached_prefix h h' q :
  h `prefix_of` h' → (q < length h)%nat → attached h q → attached h' q.
Proof.
  intros Hpre Hq Hatt nd p Hnd Hp.
  destruct (lookup_lt_is_Some_2 h q Hq) as [nd0 Hnd0].
  pose proof (prefix_lookup_Some _ _ _ _ Hnd0 Hpre) as Hnd0'.
  assert (nd0 = nd) as -> by congruence.
  destruct (Hatt nd p Hnd0 Hp) as (pn & cs & Hpn & Hcs & Hin).
  exists pn, cs. split; [by eapply prefix_lookup_Some | done].
Qed.

(** Storing a new children array in [p]: the overlay stays consistent
    when the array has no repeats and holds children of [p] only. *)
Lemma set_children_consistent h p pn cs' :
  children_consistent h →
  h !! p = Some pn →
  hasChildren (node pn) = true →
  NoDup cs' →
  (∀ c, c ∈ cs' → ∃ cn, h !! c = Some cn ∧ parent cn = Some p) →
  children_consistent (<[p := mkNode (node pn) (parent pn) (Some cs')]> h).
Proof.
  intros Hcc Hp Hhc Hnodup Hmem q qn cs Hq Hcs.
  pose proof (lookup_lt_length _ _ _ Hp) as Hlt.
  assert (Hcell : ∀ c cn par, h !! c = Some cn → parent cn = par →
            ∃ cn', <[p := mkNode (node pn) (parent pn) (Some cs')]> h !! c
                     = Some cn' ∧ parent cn' = par).
  { intros c cn par Hc Hpar. destruct (decide (c = p)) as [-> | Hne].
    - rewrite list_lookup_insert_eq by done. eexists. split; [done |].
      cbn. congruence.
    - rewrite list_lookup_insert_ne by done. eauto. }
  destruct (decide (q = p)) as [-> | Hne].
  - rewrite list_lookup_insert_eq in Hq by done. injection Hq as <-.
    cbn in Hcs. injection Hcs as <-. split; [done |]. split; [done |].
    intros c Hc. destruct (Hmem c Hc) as (cn & Hcn & Hpar). eauto.
  - rewrite list_lookup_insert_ne in Hq by done.
    destruct (Hcc q qn cs Hq Hcs) as (Hhq & Hnd & Hm).
    split; [done |]. split; [done |].
    intros c Hc. destruct (Hm c Hc) as (cn & Hcn & Hpar). eauto.
Qed.

(** Storing a new children array in [p] keeps [q] attached when it does
    not drop [q]. *)
Lemma set_children_attached h p pn cs' q :
  h !! p = Some pn →
  (∀ cs, children pn = Some cs → q ∈ cs → q ∈ cs') →
  attached h q →
  attached (<[p := mkNode (node pn) (parent pn) (Some cs')]> h) q.
Proof.
  intros Hp Hkeep Hatt nd p0 Hnd Hp0.
  pose proof (lookup_lt_length _ _ _ Hp) as Hlt.
  assert (∃ nd0, h !! q = Some nd0 ∧ parent nd0 = Some p0) as (nd0 & Hnd0 & Hpar0).
  { destruct (decide (q = p)) as [-> | Hne].
    - rewrite list_lookup_insert_eq in Hnd by done. injection Hnd as <-.
      exists pn. by split.
    - rewrite list_lookup_insert_ne in Hnd by done. eauto. }
  destruct (Hatt nd0 p0 Hnd0 Hpar0) as (pn0 & cs0 & Hpn0 & Hcs0 & Hin).
  destruct (decide (p0 = p)) as [-> | Hne].
  - assert (pn0 = pn) as -> by congruence.
    eexists _, cs'. rewrite list_lookup_insert_eq by done.
    split; [done |]. split; [done | by apply (Hkeep cs0)].
  - exists pn0, cs0. rewrite list_lookup_insert_ne by done. done.
Qed.

(** A node becomes attached when its parent's array is set to one that
    holds it. *)
Lemma set_children_attaches h p pn cs' q qn :
  h !! p = Some pn → h !! q = Some qn → parent qn = Some p → q ∈ cs' →
  attached (<[p := mkNode (node pn) (parent pn) (Some cs')]> h) q.
Proof.
  intros Hp Hq Hpar Hin nd p0 Hnd Hp0.
  pose proof (lookup_lt_length _ _ _ Hp) as Hlt.
  assert (p0 = p) as ->.
  { destruct (decide (q = p)) as [-> | Hne].
    - rewrite list_lookup_insert_eq in Hnd by done. injection Hnd as <-.
      cbn in Hp0. congruence.
    - rewrite list_lookup_insert_ne in Hnd by done. congruence. }
  eexists _, cs'. rewrite list_lookup_insert_eq by done. done.
Qed.

Lemma map_new_Node_consistent cs :
  Forall new_Node_keeps cs →
  ∀ this h, children_consistent h →
    children_consistent (snd (map_new_Node cs this h)) ∧
    h `prefix_of` snd (map_new_Node cs this h) ∧
    (∀ q, q ∉ fst (map_new_Node cs this h) →
          attached h q → attached (snd (map_new_Node cs this h)) q) ∧
    NoDup (fst (map_new_Node cs this h)) ∧
    ∀ i, i ∈ fst (map_new_Node cs this h) →
         (length h ≤ i)%nat ∧
         ∃ cn, snd (map_new_Node cs this h) !! i = Some cn ∧
               parent cn = Some this.
Proof.
  induction 1 as [| c cs Hc _ IH]; intros this h Hcc.
  - cbn. split; [done |]. split; [done |]. split; [done |].
    split; [constructor |]. intros i Hi. by inversion Hi.
  - cbn [map_new_Node].
    destruct (new_Node_shape c (Some this) h) as (nd & e1 & Hnew & _ & Hpar & _).
    destruct (Hc (Some this) h Hcc) as [Hcc1 Hatt1].
    rewrite Hnew in Hcc1, Hatt1 |- *. cbn [snd] in Hcc1, Hatt1.
    destruct (IH this (h ++ nd :: e1) Hcc1) as (Hcc2 & Hpre2 & Hatt2 & Hnd2 & Hids2).
    destruct (map_new_Node cs this (h ++ nd :: e1)) as [ids h2].
    cbn [fst snd] in *.
    assert (Hfresh : length h ∉ ids).
    { intros Hin. destruct (Hids2 _ Hin) as [Hle _].
      rewrite length_app in Hle. cbn in Hle. lia. }
    split; [done |].
    split; [etrans; [by apply prefix_app_r | done] |].
    split; [| split].
    + intros q Hq Hatt. apply not_elem_of_cons in Hq as [Hq1 Hq2].
      apply Hatt2; [done |]. by apply Hatt1.
    + by constructor.
    + intros i Hi. apply elem_of_cons in Hi as [-> | Hi].
      * split; [done |]. exists nd. split; [| done].
        eapply prefix_lookup_Some; [| done]. by apply list_lookup_middle.
      * destruct (Hids2 i Hi) as [Hle Hcn]. split; [| done].
        rewrite length_app in Hle. lia.
Qed.

(** [new Node(r, p)] keeps the overlay consistent, and every older node
    attached; the nodes it allocates below the new one are attached, and
    the new one waits to be put among the children of [p]. *)
Lemma new_Node_consistent r : new_Node_keeps r.
Proof.
  induction r as [t v | t cs IH] using raw_ind'; intros p h Hcc.
  - cbn [new_Node snd]. split; [by apply consistent_snoc |].
    intros q Hq Hatt nd p0 Hnd Hp0.
    assert (q < length h)%nat as Hlt.
    { apply lookup_lt_length in Hnd. rewrite length_app in Hnd. cbn in Hnd. lia. }
    eapply (attached_prefix h); [by apply prefix_app_r | done | done | done | done].
  - rewrite new_Node_Branch.
    set (cell0 := mkNode (Branch t cs) p None).
    assert (Hcc0 : children_consistent (h ++ [cell0])) by by apply consistent_snoc.
    destruct (map_new_Node_consistent cs IH (length h) (h ++ [cell0]) Hcc0)
      as (Hcc1 & Hpre1 & Hatt1 & Hnd1 & Hids1).
    destruct (map_new_Node cs (length h) (h ++ [cell0])) as [ids h1].
    cbn [fst snd] in *.
    assert (Hcell : h1 !! length h = Some cell0).
    { eapply prefix_lookup_Some; [| done]. by apply list_lookup_middle. }
    change (mkNode (Branch t cs) p (Some ids))
      with (mkNode (node cell0) (parent cell0) (Some ids)).
    split.
    + apply set_children_consistent; [done | done | done | done |].
      intros c Hc. by destruct (Hids1 c Hc) as [_ ?].
    + intros q Hq Hatt. destruct (decide (q ∈ ids)) as [Hin | Hnin].
      * destruct (Hids1 q Hin) as [_ (cn & Hcn & Hpar)].
        by eapply set_children_attaches.
      * apply set_children_attached; [done | by intros cs' Hcs' | ].
        apply Hatt1; [done |].
        intros nd p0 Hnd Hp0.
        assert (q < length h)%nat as Hlt.
        { apply lookup_lt_length in Hnd. rewrite length_app in Hnd.
          cbn in Hnd. lia. }
        eapply (attached_prefix h); [by apply prefix_app_r | done | done | done | done].
Qed.

(** ** Splicing a children array *)

Lemma indexOf_spec cs n :
  (indexOf cs n = -1 ∧ n ∉ cs) ∨
  (∃ i : nat, indexOf cs n = Z.of_nat i ∧ cs !! i = Some n).
Proof.
  unfold indexOf.
  destruct (list_find (λ x, x = n) cs) as [[i x] |] eqn:E.
  - right. apply list_find_Some in E as (Hi & -> & _). by exists i.
  - left. split; [done |]. apply list_find_None in E.
    rewrite Forall_forall in E. intros Hin. by apply (E n).
Qed.

Lemma splice_remove_sublist {A} start deleteCount (l : list A) :
  take start l ++ drop (start + deleteCount) l `sublist_of` l.
Proof.
  rewrite <- (take_drop start l) at 3.
  apply sublist_app; [done |].
  rewrite <- drop_drop. apply sublist_drop.
Qed.

Lemma splice_NoDup start deleteCount (c : node_id) cs :
  NoDup cs → c ∉ cs → NoDup (splice start deleteCount [c] cs).
Proof.
  intros Hnd Hc. unfold splice. cbn.
  rewrite <- Permutation_middle. constructor.
  - intros Hin. apply Hc. eapply elem_of_sublist; [done |].
    apply splice_remove_sublist.
  - eapply sublist_NoDup; [done |]. apply splice_remove_sublist.
Qed.

Lemma elem_of_splice start deleteCount (items cs : list node_id) x :
  x ∈ splice start deleteCount items cs → x ∈ items ∨ x ∈ cs.
Proof.
  unfold splice. rewrite !elem_of_app. intros [H | [H | H]]; [| by left |].
  - right. eapply elem_of_sublist; [done |]. apply sublist_take.
  - right. eapply elem_of_sublist; [done |]. apply sublist_drop.
Qed.

(** Inserting keeps every member. *)
Lemma splice_insert_keeps start (items cs : list node_id) x :
  x ∈ cs → x ∈ splice start 0 items cs.
Proof.
  unfold splice. rewrite Nat.add_0_r. intros Hx.
  rewrite <- (take_drop start cs) in Hx.
  rewrite !elem_of_app. apply elem_of_app in Hx as [H | H]; auto.
Qed.

(** Deleting one member keeps every other one. *)
Lemma splice_delete_keeps i (items cs : list node_id) n x :
  cs !! i = Some n → x ≠ n → x ∈ cs → x ∈ splice i 1 items cs.
Proof.
  unfold splice. intros Hi Hne Hx.
  rewrite <- (take_drop_middle cs i n Hi) in Hx.
  rewrite Nat.add_1_r. rewrite !elem_of_app.
  apply elem_of_app in Hx as [H | H]; [by left |].
  apply elem_of_cons in H as [-> | H]; [done | auto].
Qed.

(** ** One round of a mutation loop *)

Ltac round_cases h n :=
  unfold splice_children, bind, parent_of, read, run, ret, Node_hasChildren,
    Node_children, deref; cbn;
  destruct (h !! n) as [?nd |] eqn:?Hn; cbn; [| by left];
  destruct (parent nd) as [?p |] eqn:?Hp; cbn; [| by left];
  destruct (h !! p) as [?pn |] eqn:?Hpn; cbn; [| by left];
  destruct (hasChildren (node pn)) eqn:?Hhc; cbn; [| by left];
  rewrite ?Hn, ?Hpn; cbn; rewrite ?Hp; cbn; rewrite ?Hpn; cbn;
  rewrite ?Hhc; cbn;
  destruct (children pn) as [?cs |] eqn:?Hcs; cbn; [| by left];
  destruct (indexOf_spec cs n) as [[-> _] | (?i & -> & ?Hi)]; cbn; [by left |];
  destruct (Z.leb_spec 0 (Z.of_nat i)); [| lia].

Lemma remove_body_cases n h :
  snd (remove_body n h) = h ∨
  ∃ p pn cs i, located h n p pn cs i ∧
    snd (remove_body n h)
      = <[p := mkNode (node pn) (parent pn) (Some (splice i 1 [] cs))]> h.
Proof.
  unfold remove_body. round_cases h n.
  rewrite Hpn. cbn. rewrite Hcs. cbn. right. exists p, pn, cs, i.
  rewrite Nat2Z.id. repeat split; eauto.
Qed.

Lemma new_Node_fst r p h : fst (new_Node r p h) = length h.
Proof. by destruct (new_Node_shape r p h) as (nd & ext & -> & _). Qed.

Lemma before_body_cases r n h :
  snd (before_body (Raw r) n h) = h ∨
  ∃ p pn cs i, located h n p pn cs i ∧
    snd (before_body (Raw r) n h)
      = <[p := mkNode (node pn) (parent pn)
                 (Some (splice i 0 [length h] cs))]>
          (snd (new_Node r (Some p) h)).
Proof.
  unfold before_body. round_cases h n.
  right. exists p, pn, cs, i. split; [repeat split; eauto |].
  rewrite Nat2Z.id.
  destruct (new_Node_shape r (Some p) h) as (nd' & ext & Hnew & _).
  rewrite Hnew. cbn. rewrite (lookup_app_l_Some _ _ _ _ Hpn). cbn.
  rewrite Hcs. cbn. done.
Qed.

Lemma after_body_cases r n h :
  snd (after_body (Raw r) n h) = h ∨
  ∃ p pn cs i, located h n p pn cs i ∧
    snd (after_body (Raw r) n h)
      = <[p := mkNode (node pn) (parent pn)
                 (Some (splice (i + 1) 0 [length h] cs))]>
          (snd (new_Node r (Some p) h)).
Proof.
  unfold after_body, Wrapper_index. round_cases h n.
  right. exists p, pn, cs, i. split; [repeat split; eauto |].
  replace (Z.to_nat (Z.of_nat i + 1)) with (i + 1)%nat by lia.
  destruct (new_Node_shape r (Some p) h) as (nd' & ext & Hnew & _).
  rewrite Hnew. cbn. rewrite (lookup_app_l_Some _ _ _ _ Hpn). cbn.
  rewrite Hcs. cbn. done.
Qed.

Lemma replace_body_cases fn r n h :
  fn h n = Raw r →
  snd (replace_body fn n h) = h ∨
  ∃ p pn cs i, located h n p pn cs i ∧
    snd (replace_body fn n h)
      = <[p := mkNode (node pn) (parent pn)
                 (Some (splice i 1 [length h] cs))]>
          (snd (new_Node r (Some p) h)).
Proof.
  intros Hfn. unfold replace_body. round_cases h n.
  right. exists p, pn, cs, i. split; [repeat split; eauto |].
  rewrite Nat2Z.id, Hfn. cbn [Node_create].
  destruct (new_Node_shape r (Some p) h) as (nd' & ext & Hnew & _).
  rewrite Hnew. cbn. rewrite (lookup_app_l_Some _ _ _ _ Hpn). cbn.
  rewrite Hcs. cbn. done.
Qed.

Lemma located_consistent h n p pn cs i :
  children_consistent h → located h n p pn cs i →
  hasChildren (node pn) = true ∧ NoDup cs ∧ (length h ∉ cs) ∧
  ∀ c, c ∈ cs → ∃ cn, h !! c = Some cn ∧ parent cn = Some p.
Proof.
  intros Hcc (_ & Hpn & Hcs & _).
  destruct (Hcc p pn cs Hpn Hcs) as (Hhc & Hnd & Hmem).
  split; [done |]. split; [done |]. split; [| done].
  intros Hin. destruct (Hmem _ Hin) as (cn & Hcn & _).
  apply lookup_lt_length in Hcn. lia.
Qed.

(** Wrapping a raw node for [p] and splicing it into the array of [p]
    keeps the overlay consistent; a node stays attached when the splice
    does not drop it, and the new node is attached. *)
Lemma splice_raw_keeps h n p pn cs i r start deleteCount :
  children_consistent h → located h n p pn cs i →
  let cs' := splice start deleteCount [length h] cs in
  let h' := <[p := mkNode (node pn) (parent pn) (Some cs')]>
              (snd (new_Node r (Some p) h)) in
  children_consistent h' ∧
  ∀ q, (q ∈ cs → q ∈ cs') → attached h q → attached h' q.
Proof.
  intros Hcc Hloc cs' h'.
  destruct (located_consistent h n p pn cs i Hcc Hloc)
    as (Hhc & Hnd & Hfresh & Hmem).
  destruct Hloc as (_ & Hpn & Hcs & _).
  destruct (new_Node_consistent r (Some p) h Hcc) as [Hcc1 Hatt1].
  destruct (new_Node_shape r (Some p) h) as (nd & ext & Hnew & _ & Hpar & _).
  pose proof (new_Node_prefix r (Some p) h) as Hpre.
  subst h'. rewrite Hnew in Hcc1, Hatt1, Hpre |- *. cbn [snd] in *.
  pose proof (prefix_lookup_Some _ _ _ _ Hpn Hpre) as Hpn1.
  assert (Hnew1 : (h ++ nd :: ext) !! length h = Some nd)
    by (by apply list_lookup_middle).
  assert (Hmid : length h ∈ cs').
  { unfold cs', splice. rewrite !elem_of_app. right. left. by left. }
  split.
  - apply set_children_consistent; [done | done | done | by apply splice_NoDup |].
    intros c Hc. apply elem_of_splice in Hc as [Hc | Hc].
    + apply list_elem_of_singleton in Hc as ->. eauto.
    + destruct (Hcc1 p pn cs Hpn1 Hcs) as (_ & _ & Hmem1). by apply Hmem1.
  - intros q Hkeep Hatt. destruct (decide (q = length h)) as [-> | Hne].
    + by eapply set_children_attaches.
    + apply set_children_attached; [done | | by apply Hatt1].
      intros cs0 Hcs0. by assert (cs0 = cs) as -> by congruence.
Qed.

(** Splicing [n] out of the array of its parent keeps the overlay
    consistent and every other node attached. *)
Lemma splice_out_keeps h n p pn cs i :
  children_consistent h → located h n p pn cs i →
  let h' := <[p := mkNode (node pn) (parent pn) (Some (splice i 1 [] cs))]> h in
  children_consistent h' ∧ ∀ q, q ≠ n → attached h q → attached h' q.
Proof.
  intros Hcc Hloc h'.
  destruct (located_consistent h n p pn cs i Hcc Hloc) as (Hhc & Hnd & _ & Hmem).
  destruct Hloc as (_ & Hpn & Hcs & Hi).
  split.
  - apply set_children_consistent; [done | done | done | |].
    + eapply sublist_NoDup; [done |]. apply splice_remove_sublist.
    + intros c Hc. apply elem_of_splice in Hc as [Hc | Hc]; [by inversion Hc | auto].
  - intros q Hq Hatt. apply set_children_attached; [done | | done].
    intros cs0 Hcs0 Hin. assert (cs0 = cs) as -> by congruence.
    by eapply splice_delete_keeps.
Qed.

Lemma for_of_invariant {A} (I : Overlay → Prop) (l : list A) (body : A → M unit) :
  (∀ x h, x ∈ l → I h → I (snd (body x h))) →
  ∀ h, I h → I (snd (for_of l body h)).
Proof.
  induction l as [| x l IH]; intros Hbody h Hh; [done |].
  cbn [for_of]. unfold bind.
  pose proof (Hbody x h ltac:(by left) Hh) as Hx.
  destruct (body x h) as [[[] | e |] h1]; cbn [snd] in *; try done.
  apply IH; [| done]. intros y h2 Hy. apply Hbody. by right.
Qed.

Lemma snd_loop_then_ret {A} (l : list A) (body : A → M unit) (this : Wrapper) h :
  snd ((let! _ := for_of l body in ret this) h) = snd (for_of l body h).
Proof. unfold bind, ret. by destruct (for_of l body h) as [[[] | e |] h1]. Qed.

(** The overlay that the constructor builds satisfies the invariant. *)
Lemma new_Node_invariant r : overlay_invariant (snd (new_Node r None [])).
Proof.
  assert (Hnil : children_consistent []) by (intros p pn cs Hp; done).
  destruct (new_Node_consistent r None [] Hnil) as [Hcc Hatt].
  split; [done |]. intros q. destruct (decide (q = 0%nat)) as [-> | Hne].
  - destruct (new_Node_shape r None []) as (nd & ext & -> & _ & Hpar & _).
    intros nd' p Hnd' Hp. cbn in Hnd'. congruence.
  - apply Hatt; [done |]. intros nd p Hnd. done.
Qed.

(** The executable checks decide the two conditions. *)
Lemma attachedb_spec h n : attachedb h n = true ↔ attached h n.
Proof.
  unfold attachedb, attached. split.
  - intros Hb nd p Hnd Hp. rewrite Hnd in Hb. destruct nd as [r par c].
    cbn in Hp. subst par.
    destruct (h !! p) as [[r' par' [cs |]] |] eqn:Hpn; try done.
    apply bool_decide_eq_true in Hb. eauto.
  - intros Hatt. destruct (h !! n) as [[r [p |] c] |] eqn:Hn; try done.
    destruct (Hatt _ p eq_refl eq_refl) as (pn & cs & -> & Hcs & Hin).
    destruct pn as [r' par' c']. cbn in Hcs. subst c'.
    by apply bool_decide_eq_true.
Qed.

Lemma children_consistentb_spec h :
  children_consistentb h = true ↔ children_consistent h.
Proof.
  unfold children_consistentb, children_consistent.
  rewrite forallb_forall. split.
  - intros Hb p pn cs Hp Hcs.
    specialize (Hb p). rewrite Hp in Hb. destruct pn as [r par c].
    cbn in Hcs. subst c.
    assert (Hin : In p (seq 0 (length h))).
    { apply in_seq. apply lookup_lt_length in Hp. lia. }
    apply Hb, andb_prop in Hin as [H0 H2].
    apply andb_prop in H0 as [H0 H1].
    apply bool_decide_eq_true in H1. split; [done |]. split; [done |].
    intros c Hc. rewrite forallb_forall in H2.
    specialize (H2 c (proj1 (list_elem_of_In _ _) Hc)).
    destruct (h !! c) as [cn |]; [| done].
    apply bool_decide_eq_true in H2. eauto.
  - intros Hcc p _. destruct (h !! p) as [[r par [cs |]] |] eqn:Hp; try done.
    destruct (Hcc p _ cs Hp eq_refl) as (Hhc & Hnd & Hmem). cbn in Hhc.
    apply andb_true_intro. split;
      [apply andb_true_intro; split; [done | by apply bool_decide_eq_true] |].
    apply forallb_forall. intros c Hc.
    destruct (Hmem c (proj2 (list_elem_of_In _ _) Hc)) as (cn & -> & Hpar).
    by apply bool_decide_eq_true.
Qed.

(** In a consistent overlay, [index()] of a node that occurs in a
    children array is the place where it occurs. *)
Lemma index_is_position h : children_consistent h → index_is_place h.
Proof.
  intros Hcc p pn cs i c Hpn Hcs Hi.
  destruct (Hcc p pn cs Hpn Hcs) as (Hhc & Hnd & Hmem).
  destruct (Hmem c (list_elem_of_lookup_2 _ _ _ Hi)) as (cn & Hcn & Hpar).
  unfold Wrapper_index, Node_hasChildren, Node_children, deref. cbn.
  rewrite Hcn. cbn. rewrite Hpar, Hpn. cbn. rewrite Hhc, Hcs. cbn.
  destruct (indexOf_spec cs c) as [[_ Hnin] | (j & -> & Hj)].
  - destruct Hnin. by eapply list_elem_of_lookup_2.
  - by rewrite (NoDup_lookup cs j i c Hnd Hj Hi).
Qed.

(** * Further theorems *)

(** ** Order of construction *)

Lemma ordered_nil : ordered [].
Proof. split; intros *; by rewrite lookup_nil. Qed.

Lemma ordered_snoc h nd :
  (∀ p, parent nd = Some p → (p < length h)%nat) → children nd = None →
  ordered h → ordered (h ++ [nd]).
Proof.
  intros Hpar Hch [Ho1 Ho2]. split.
  - intros p pn cs c Hp Hcs Hc.
    destruct (decide (p < length h)%nat) as [Hlt | Hge].
    + rewrite lookup_app_l in Hp by done. eauto.
    + rewrite lookup_app_r in Hp by lia.
      destruct (p - length h)%nat; cbn in Hp; [| done].
      injection Hp as <-. congruence.
  - intros n nd' p Hn Hp.
    destruct (decide (n < length h)%nat) as [Hlt | Hge].
    + rewrite lookup_app_l in Hn by done. eauto.
    + pose proof (lookup_lt_length _ _ _ Hn) as Hlen.
      rewrite length_app in Hlen. cbn in Hlen.
      rewrite lookup_app_r in Hn by lia.
      destruct (n - length h)%nat eqn:E; cbn in Hn; [| done].
      injection Hn as <-. specialize (Hpar p Hp). lia.
Qed.

Lemma ordered_set_children h p pn cs' :
  ordered h → h !! p = Some pn → (∀ c, c ∈ cs' → (p < c)%nat) →
  ordered (<[p := mkNode (node pn) (parent pn) (Some cs')]> h).
Proof.
  intros [Ho1 Ho2] Hp Hcs'. pose proof (lookup_lt_length _ _ _ Hp) as Hlt.
  split.
  - intros q qn cs c Hq Hcs Hc. destruct (decide (q = p)) as [-> | Hne].
    + rewrite list_lookup_insert_eq in Hq by done. injection Hq as <-.
      cbn in Hcs. injection Hcs as <-. by apply Hcs'.
    + rewrite list_lookup_insert_ne in Hq by done. eauto.
  - intros n nd q Hn Hq. destruct (decide (n = p)) as [-> | Hne].
    + rewrite list_lookup_insert_eq in Hn by done. injection Hn as <-.
      cbn in Hq. eauto.
    + rewrite list_lookup_insert_ne in Hn by done. eauto.
Qed.

Lemma map_new_Node_ids cs :
  ∀ this h i, i ∈ fst (map_new_Node cs this h) → (length h ≤ i)%nat.
Proof.
  induction cs as [| c cs IH]; intros this h i; cbn [map_new_Node].
  - by inversion 1.
  - destruct (new_Node_shape c (Some this) h) as (nd & e1 & Hnew & _).
    rewrite Hnew. specialize (IH this (h ++ nd :: e1)).
    destruct (map_new_Node cs this (h ++ nd :: e1)) as [ids h2]. cbn [fst] in *.
    intros Hi. apply elem_of_cons in Hi as [-> | Hi]; [done |].
    specialize (IH i Hi). rewrite length_app in IH. lia.
Qed.

Lemma map_new_Node_prefix cs :
  ∀ this h, h `prefix_of` snd (map_new_Node cs this h).
Proof.
  induction cs as [| c cs IH]; intros this h; cbn [map_new_Node]; [done |].
  pose proof (new_Node_prefix c (Some this) h) as Hpre.
  destruct (new_Node c (Some this) h) as [i h1]. cbn [snd] in Hpre.
  specialize (IH this h1). destruct (map_new_Node cs this h1) as [ids h2].
  cbn [snd] in *. by etrans.
Qed.

(** The constructor hands out identities in growing order. *)
Lemma new_Node_ordered r :
  ∀ par h, (∀ p, par = Some p → (p < length h)%nat) → ordered h →
           ordered (snd (new_Node r par h)).
Proof.
  induction r as [t v | t cs IH] using raw_ind'; intros par h Hpar Ho.
  - cbn [new_Node snd]. by apply ordered_snoc.
  - rewrite new_Node_Branch.
    set (cell0 := mkNode (Branch t cs) par None).
    assert (Ho0 : ordered (h ++ [cell0])) by by apply ordered_snoc.
    assert (Hmap : ∀ h0, (length h < length h0)%nat → ordered h0 →
                         ordered (snd (map_new_Node cs (length h) h0))).
    { clear Ho0. induction IH as [| c cs' Hc _ IHcs]; intros h0 Hlt Ho0; [done |].
      cbn [map_new_Node].
      specialize (Hc (Some (length h)) h0).
      pose proof (new_Node_prefix c (Some (length h)) h0) as Hpre.
      destruct (new_Node c (Some (length h)) h0) as [i h1]. cbn [snd] in *.
      specialize (IHcs h1).
      destruct (map_new_Node cs' (length h) h1) as [ids h2]. cbn [snd] in *.
      apply IHcs.
      - apply prefix_length in Hpre. lia.
      - apply Hc; [| done]. intros p [= <-]. done. }
    pose proof (map_new_Node_ids cs (length h) (h ++ [cell0])) as Hids.
    pose proof (map_new_Node_prefix cs (length h) (h ++ [cell0])) as Hpre.
    specialize (Hmap (h ++ [cell0])).
    destruct (map_new_Node cs (length h) (h ++ [cell0])) as [ids h1].
    cbn [fst snd] in *.
    assert (Hcell : h1 !! length h = Some cell0).
    { eapply prefix_lookup_Some; [| done]. by apply list_lookup_middle. }
    change (mkNode (Branch t cs) par (Some ids))
      with (mkNode (node cell0) (parent cell0) (Some ids)).
    apply ordered_set_children; [| done |].
    + apply Hmap; [| done]. rewrite length_app. cbn. lia.
    + intros c Hc. specialize (Hids c Hc). rewrite length_app in Hids.
      cbn in Hids. lia.
Qed.

(** ** Creating a session *)

(** X1. [createQuery] accepts plain objects only: for every other value
    it throws the invariant error whose message is [ast] between double
    quotes, followed by [must be a plain object].  For a tree in the
    default format, where [type] is a string and [value] is a string or
    an array of such trees, it builds an overlay in which the root has
    no parent and spells the tree, every member of a children array has
    the holder as its parent and occurs once, every node with a parent
    is among the children of that parent, and children are younger than
    their parent. *)
Theorem createQuery_builds_the_overlay (ast : value) :
  match ast with
  | VObject r =>
      ∃ h nd, createQuery ast = Ok h ∧
              h !! ROOT = Some nd ∧ node nd = r ∧ parent nd = None ∧
              represents h ROOT r ∧ overlay_invariant h ∧ ordered h
  | _ => createQuery ast = Throw (Invariant ast_must_be_a_plain_object) ∧
         list_ascii_of_string ast_must_be_a_plain_object
           = [double_quote; "a"; "s"; "t"; double_quote]%char
             ++ list_ascii_of_string " must be a plain object" ∧
         nat_of_ascii double_quote = 34%nat
  end.
Proof.
  destruct ast; try (split; [reflexivity | split; reflexivity]).
  destruct (new_Node_shape r None []) as (nd & ext & Hnew & Hnode & Hpar & Hrep).
  exists (snd (new_Node r None [])), nd. split; [reflexivity |].
  pose proof (new_Node_invariant r) as Hinv.
  pose proof (new_Node_ordered r None [] ltac:(done) ordered_nil) as Hord.
  rewrite Hnew in Hinv, Hord |- *. cbn [snd] in *.
  split; [done |]. split; [done |]. split; [done |].
  split; [by apply (Hrep []) | done].
Qed.

(** X2. [Node.create] returns a node that is already wrapped as it is,
    whatever parent it is given, and changes nothing; for a raw node it
    allocates a new node with the given parent, which spells the raw
    tree, and leaves every older object as it was. *)
Theorem Node_create_wraps_once (p : option node_id) (h : Overlay) :
  (∀ n, Node_create (Wrapped n) p h = (n, h)) ∧
  (∀ r, ∃ nd ext,
     Node_create (Raw r) p h = (length h, h ++ nd :: ext) ∧
     node nd = r ∧ parent nd = p ∧
     represents (h ++ nd :: ext) (length h) r ∧
     ∀ n old, h !! n = Some old → (h ++ nd :: ext) !! n = Some old).
Proof.
  split; [reflexivity |]. intros r.
  destruct (new_Node_shape r p h) as (nd & ext & Hnew & Hnode & Hpar & Hrep).
  exists nd, ext. cbn [Node_create].
  split; [done |]. split; [done |]. split; [done |].
  split; [by apply Hrep |].
  intros n old Hn. by apply lookup_app_l_Some.
Qed.

Lemma Node_create_wraps_once_witness :
  Node_create (Wrapped 2%nat) (Some 3%nat) abc_overlay = (2%nat, abc_overlay) ∧
  fst (Node_create (Raw (item "z")) (Some ROOT) abc_overlay) = 4%nat ∧
  snd (Node_create (Raw (item "z")) (Some ROOT) abc_overlay) !! 2%nat
    = abc_overlay !! 2%nat.
Proof.
  destruct (Node_create_wraps_once (Some 3%nat) abc_overlay) as [Hw _].
  destruct (Node_create_wraps_once (Some ROOT) abc_overlay) as [_ Hr].
  destruct (Hr (item "z")) as (nd & ext & Hnew & _ & _ & _ & Hold).
  split; [apply Hw |]. rewrite Hnew. split; [reflexivity |].
  cbn [snd]. by apply Hold.
Defined.

(** ** The constructor of [Wrapper] *)

(** X3. The query function flattens its argument by one level only: an
    empty array is truthy and gives the empty selection, not the root,
    and an array that holds an array throws. *)
Theorem query_flattens_one_level :
  query (VArray []) = Ok (mkWrapper [] None) ∧
  (∀ ns ms, query (VArray (map VNode ns ++ map VNode ms))
              = Ok (mkWrapper (ns ++ ms) None)) ∧
  (∀ l l1 l2, query (VArray (l1 ++ VArray l :: l2)) = Throw not_a_node).
Proof.
  split; [reflexivity |]. split.
  - intros ns ms. rewrite <- map_app. apply new_Wrapper_nodes.
  - intros l l1 l2. unfold query, new_Wrapper.
    cbn [truthy flatten flat_map]. rewrite app_nil_r.
    replace (forallb isNode (l1 ++ VArray l :: l2)) with false; [done |].
    symmetry. apply not_true_is_false. rewrite forallb_forall.
    intros H. specialize (H (VArray l)). cbn in H.
    assert (false = true); [| done].
    apply H. apply in_or_app. right. by left.
Qed.

(** ** Filtering with a selector *)

Lemma filterM_Ok {A} (fn : A → result bool) (g : A → bool) l :
  Forall (λ x, fn x = Ok (g x)) l → filterM fn l = Ok (List.filter g l).
Proof.
  induction 1 as [| x l Hx _ IH]; [done |].
  cbn. rewrite Hx. cbn. rewrite IH. cbn. by destruct (g x).
Qed.

Lemma map_of_node_Some l : map of_node (map Some l) = map VNode l.
Proof. induction l as [| x l IH]; [done |]. cbn. by rewrite IH. Qed.

Lemma filter_map_Some {A} (g : A → bool) l :
  List.filter (λ o : option A, match o with Some x => g x | None => false end)
    (map Some l) = map Some (List.filter g l).
Proof.
  induction l as [| x l IH]; [done |]. cbn. rewrite IH. by destruct (g x).
Qed.

(** [$filter] on an array of objects of the arena keeps those that satisfy
    the selector, in their order. *)
Lemma dollar_filter_nodes this selector h l :
  Forall (λ m, is_Some (h !! m)) l →
  dollar_filter this (map Some l) (getSelector selector) h
  = Ok (mkWrapper (List.filter (matches selector h) l) (Some this)).
Proof.
  intros Hl. unfold dollar_filter.
  rewrite (filterM_Ok _ (λ o, match o with
                              | Some x => matches selector h x
                              | None => false
                              end)).
  - cbn. rewrite filter_map_Some, map_of_node_Some. apply new_Wrapper_nodes.
  - apply Forall_map. eapply Forall_impl; [done |].
    intros m Hm. cbn. by apply getSelector_Ok.
Qed.

Lemma Forall_valid_filter (h : Overlay) (g : node_id → bool) l :
  Forall (λ m, is_Some (h !! m)) l →
  Forall (λ m, is_Some (h !! m)) (List.filter g l).
Proof.
  rewrite !Forall_forall. intros Hl m Hm. apply Hl.
  apply list_elem_of_In in Hm. apply filter_In in Hm as [Hm _].
  by apply list_elem_of_In.
Qed.

Lemma filter_filter {A} (g : A → bool) l :
  List.filter g (List.filter g l) = List.filter g l.
Proof.
  induction l as [| x l IH]; [done |]. cbn.
  destruct (g x) eqn:E; [| done]. cbn. by rewrite E, IH.
Qed.

(** X4. [filter] with a selector that reads the node alone and keeps no
    state between its calls keeps the nodes of the selection that
    satisfy it, in their order, and records the receiver as the previous
    selection.  When the selector is a string, filtering the result
    again with the same string keeps every node of the result. *)
Theorem filter_keeps_the_matching_nodes (this : Wrapper) (selector : arg)
    (h : Overlay) (Hvalid : Forall (λ m, is_Some (h !! m)) (nodes this)) :
  let kept := mkWrapper (List.filter (matches selector h) (nodes this))
                (Some this) in
  Wrapper_filter this selector h = Ok kept ∧
  ∀ s, selector = AValue (VStr s) →
       Wrapper_filter kept selector h = Ok (mkWrapper (nodes kept) (Some kept)).
Proof.
  intros kept. unfold Wrapper_filter. split.
  - by apply dollar_filter_nodes.
  - intros s _. rewrite dollar_filter_nodes; [| by apply Forall_valid_filter].
    cbn [nodes kept]. by rewrite filter_filter.
Qed.

Lemma filter_keeps_the_matching_nodes_witness :
  let all := mkWrapper [0; 1; 2; 3; 4]%nat None in
  let items := mkWrapper [2; 4]%nat (Some all) in
  Wrapper_filter all (AValue (VStr "item")) readme_overlay = Ok items ∧
  Wrapper_filter items (AValue (VStr "item")) readme_overlay
    = Ok (mkWrapper [2; 4]%nat (Some items)).
Proof.
  intros all items.
  assert (Hvalid : Forall (λ m, is_Some (readme_overlay !! m)) (nodes all))
    by (repeat constructor; by eexists).
  destruct (filter_keeps_the_matching_nodes all (AValue (VStr "item"))
              readme_overlay Hvalid) as [H1 H2].
  split; [exact H1 | exact (H2 "item" eq_refl)].
Defined.

(** ** [get] with an index *)

(** X5. [get(index)] with an integer outside the selection throws a
    [TypeError], where [eq] gives the empty selection; with an integer
    inside it returns the JSON of that one node, not wrapped in an
    array. *)
Theorem get_at_an_index (fuel : nat) (this : Wrapper) (i : Z) (h : Overlay) :
  (i < 0 ∨ Wrapper_length this ≤ i →
   Wrapper_get fuel this (VNum (Int i)) h = Throw TypeError) ∧
  (∀ n r, 0 ≤ i → nodes this !! Z.to_nat i = Some n →
          represents h n r → (height r ≤ fuel)%nat →
          Wrapper_get fuel this (VNum (Int i)) h = Ok (VObject r)).
Proof.
  split.
  - intros Hi. unfold Wrapper_get, at_index.
    destruct (Z.ltb_spec i 0); [done |].
    destruct Hi as [Hi | Hi]; [lia |]. unfold Wrapper_length in Hi.
    by rewrite (lookup_ge_None_2 (nodes this) (Z.to_nat i)) by lia.
  - intros n r Hi Hn Hrep Hfuel. unfold Wrapper_get, at_index.
    destruct (Z.ltb_spec i 0); [lia |]. rewrite Hn.
    by rewrite (Node_toJSON_represents h r n fuel Hrep Hfuel).
Qed.

Lemma get_at_an_index_witness :
  let items := mkWrapper [2; 4]%nat None in
  Wrapper_get 1 items (VNum (Int 2)) readme_overlay = Throw TypeError ∧
  Wrapper_get 1 items (VNum (Int (-1))) readme_overlay = Throw TypeError ∧
  Wrapper_get 1 items (VNum (Int 1)) readme_overlay = Ok (VObject (item "b")).
Proof.
  intros items. split; [| split].
  - apply (get_at_an_index 1 items 2 readme_overlay). right.
    unfold Wrapper_length. cbn. lia.
  - apply (get_at_an_index 1 items (-1) readme_overlay). left. lia.
  - apply (proj2 (get_at_an_index 1 items 1 readme_overlay) 4%nat (item "b"));
      [lia | reflexivity | by exists (Some 0%nat) | cbn; lia].
Defined.

(** ** [index] *)

(** X6. On a selection that is empty or starts with a node without
    parent, [index] without an argument (or with a falsy one, such as the
    empty string) returns -1, while [index] with a selector throws a
    [TypeError]. *)
Theorem index_without_a_parent (this : Wrapper) (a : arg) (h : Overlay)
    (Hthis : nodes this = [] ∨
             ∃ n nd, head (nodes this) = Some n ∧ h !! n = Some nd ∧
                     parent nd = None) :
  (arg_truthy a = false → Wrapper_index this a h = Ok (-1)) ∧
  (arg_truthy a = true → (∀ m, a ≠ AValue (VNode m)) →
   Wrapper_index this a h = Throw TypeError).
Proof.
  unfold Wrapper_index. split.
  - intros ->. cbn. destruct Hthis as [-> | (n & nd & -> & Hn & Hp)]; [done |].
    cbn. rewrite Hn. cbn. by rewrite Hp.
  - intros -> Hnode. cbn.
    assert (E : (let* nd := deref h (head (nodes this)) in
                 let* pc := Node_hasChildren h (parent nd) in
                 if negb pc then Ok (-1) else
                 let* cs := Node_children h (parent nd) in
                 let* w := dollar_filter this (map Some cs) (getSelector a) h in
                 match head (nodes this) with
                 | Some n => Ok (indexOf (nodes w) n)
                 | None => Throw TypeError
                 end) = Throw TypeError).
    { destruct Hthis as [-> | (n & nd & -> & Hn & Hp)]; [done |].
      cbn. rewrite Hn. cbn. by rewrite Hp. }
    destruct a as [[] | |]; try exact E. by destruct (Hnode n).
Qed.

Lemma index_without_a_parent_witness :
  Wrapper_index root_selection (AValue VUndefined) abc_overlay = Ok (-1) ∧
  Wrapper_index root_selection (AValue (VStr EmptyString)) abc_overlay = Ok (-1) ∧
  Wrapper_index root_selection (AValue (VStr "list")) abc_overlay
    = Throw TypeError ∧
  Wrapper_index (mkWrapper [] None) (AValue (VStr "item")) abc_overlay
    = Throw TypeError.
Proof.
  assert (Hroot : nodes root_selection = [] ∨
            ∃ n nd, head (nodes root_selection) = Some n ∧
                    abc_overlay !! n = Some nd ∧ parent nd = None).
  { right. by eexists ROOT, _. }
  split; [by apply (index_without_a_parent root_selection _ abc_overlay Hroot) |].
  split; [by apply (index_without_a_parent root_selection _ abc_overlay Hroot) |].
  split.
  - apply (index_without_a_parent root_selection _ abc_overlay Hroot);
      [done | discriminate].
  - apply (index_without_a_parent (mkWrapper [] None) _ abc_overlay);
      [by left | done | discriminate].
Defined.

Lemma indexOf_first cs n i :
  cs !! i = Some n → (∀ j, (j < i)%nat → cs !! j ≠ Some n) →
  indexOf cs n = Z.of_nat i.
Proof.
  intros Hi Hfirst. unfold indexOf.
  destruct (list_find (λ x, x = n) cs) as [[j x] |] eqn:E.
  - apply list_find_Some in E as (Hj & -> & Hmin).
    destruct (Nat.lt_trichotomy i j) as [Hlt | [-> | Hgt]]; [| done |].
    + by destruct (Hmin i n Hi Hlt).
    + by destruct (Hfirst j Hgt).
  - apply list_find_None in E. rewrite Forall_forall in E.
    destruct (E n); [by eapply list_elem_of_lookup_2 | done].
Qed.

Lemma indexOf_absent cs n : n ∉ cs → indexOf cs n = -1.
Proof.
  intros Hn. destruct (indexOf_spec cs n) as [[-> _] | (i & _ & Hi)]; [done |].
  destruct Hn. by eapply list_elem_of_lookup_2.
Qed.

(** X7. [index(node)] with a [Node] looks the node up in the selection
    itself, whatever the overlay is: it returns -1 when the node is not
    in the selection, and the place of its first occurrence otherwise. *)
Theorem index_of_a_node (this : Wrapper) (m : node_id) (h : Overlay) :
  (m ∉ nodes this → Wrapper_index this (AValue (VNode m)) h = Ok (-1)) ∧
  (∀ i : nat, nodes this !! i = Some m →
     (∀ j, (j < i)%nat → nodes this !! j ≠ Some m) →
     Wrapper_index this (AValue (VNode m)) h = Ok (Z.of_nat i)).
Proof.
  unfold Wrapper_index. cbn. split.
  - intros Hm. by rewrite indexOf_absent.
  - intros i Hi Hfirst. by rewrite (indexOf_first _ _ i).
Qed.

Lemma index_of_a_node_witness :
  let this := mkWrapper [3; 1; 3]%nat None in
  Wrapper_index this (AValue (VNode 2%nat)) [] = Ok (-1) ∧
  Wrapper_index this (AValue (VNode 3%nat)) [] = Ok 0 ∧
  Wrapper_index this (AValue (VNode 1%nat)) [] = Ok 1.
Proof.
  intros this. split; [| split].
  - apply (index_of_a_node this 2%nat []). cbn.
    rewrite !elem_of_cons. intros [H | [H | [H | H]]]; try discriminate.
    by inversion H.
  - apply (proj2 (index_of_a_node this 3%nat []) 0%nat); [done |].
    intros j Hj. lia.
  - apply (proj2 (index_of_a_node this 1%nat []) 1%nat); [done |].
    intros [| j] Hj; [discriminate | lia].
Defined.

Lemma consistent_children_valid h p pn cs :
  children_consistent h → h !! p = Some pn → children pn = Some cs →
  Forall (λ m, is_Some (h !! m)) cs.
Proof.
  intros Hcc Hp Hcs. destruct (Hcc p pn cs Hp Hcs) as (_ & _ & Hmem).
  apply Forall_forall. intros c Hc.
  destruct (Hmem c Hc) as (cn & Hcn & _). by eexists.
Qed.



(** ** [children], [first], [last] *)







(** X10. [first] and [last] give the selection of the first and of the
    last node; on the empty selection both give the empty selection and
    throw nothing. *)
Theorem first_and_last (this : Wrapper) :
  Wrapper_first this = Ok (mkWrapper (take 1 (nodes this)) (Some this)) ∧
  Wrapper_last this
    = Ok (mkWrapper (option_list (last (nodes this))) (Some this)).
Proof.
  split.
  - unfold Wrapper_first, Wrapper_eq, nodes_at, at_index. cbn.
    change (Z.to_nat 0) with 0%nat. by destruct (nodes this).
  - unfold Wrapper_last, Wrapper_eq, nodes_at, at_index, Wrapper_length. cbn.
    rewrite last_lookup.
    destruct (nodes this) as [| n l] eqn:E; [done |].
    destruct (Z.ltb_spec (Z.of_nat (length (n :: l)) - 1) 0) as [Hlt | _];
      [cbn in Hlt; lia |].
    replace (Z.to_nat (Z.of_nat (length (n :: l)) - 1))
      with (pred (length (n :: l))) by (cbn; lia).
    destruct ((n :: l) !! pred (length (n :: l))) eqn:El; [done |].
    apply lookup_ge_None in El. cbn in El. lia.
Qed.

(** ** [has] *)






(** ** [parent] *)



Lemma filterM_always_true {A} (l : list A) :
  filterM (λ _, Ok true) l = Ok l.
Proof. induction l as [| x l IH]; [done |]. cbn. by rewrite IH. Qed.

Lemma filterM_TypeError_only (h : Overlay) (sel : predicate) l :
  (∀ o, sel h o = Throw TypeError ∨ ∃ b, sel h o = Ok b) →
  (∃ o, o ∈ l ∧ sel h o = Throw TypeError) →
  filterM (sel h) l = Throw TypeError.
Proof.
  intros Hsel (o & Ho & Hthrow).
  induction l as [| x l IH]; [by inversion Ho |].
  cbn. destruct (Hsel x) as [E | [b E]]; rewrite E; [done |]. cbn.
  apply elem_of_cons in Ho as [-> | Ho]; [congruence |].
  by rewrite IH.
Qed.

(** X13. [parent] on a selection that holds a node without parent, such
    as the root, does not skip that node: without a selector the
    constructor of the new selection rejects the missing parent, and
    with a string or a regular expression the test of the selector on it
    throws a [TypeError]. *)
Theorem parent_of_the_root_throws (this : Wrapper) (h : Overlay)
    (n : node_id) (nd : Node)
    (Hvalid : Forall (λ m, is_Some (h !! m)) (nodes this))
    (Hn : n ∈ nodes this) (Hnd : h !! n = Some nd) (Hroot : parent nd = None) :
  Wrapper_parent this (AValue VUndefined) h = Throw not_a_node ∧
  (∀ s, Wrapper_parent this (AValue (VStr s)) h = Throw TypeError) ∧
  (∀ re, Wrapper_parent this (ARegExp re) h = Throw TypeError).
Proof.
  set (parent_in := λ m, match h !! m with Some md => parent md | None => None end).
  assert (Hmap : mapM (λ n, let* nd := deref h (Some n) in Ok (parent nd))
                   (nodes this) = Ok (map parent_in (nodes this))).
  { apply mapM_Ok. clear -Hvalid.
    induction Hvalid as [| m l [md Hm] _ IH]; [constructor |].
    cbn. constructor; [| done]. unfold parent_in. cbn. by rewrite Hm. }
  assert (Hnone : None ∈ map parent_in (nodes this)).
  { apply list_elem_of_fmap. exists n. split; [| done].
    unfold parent_in. by rewrite Hnd. }
  unfold Wrapper_parent. rewrite Hmap. cbn.
  generalize dependent (map parent_in (nodes this)). intros ps _ Hnone.
  split; [| split].
  - unfold dollar_filter. rewrite filterM_always_true. cbn.
    unfold new_Wrapper. cbn [truthy flatten flat_map]. rewrite app_nil_r.
    replace (forallb isNode (map of_node ps)) with false; [done |].
    symmetry. apply not_true_is_false. rewrite forallb_forall.
    intros H. specialize (H VUndefined). cbn in H.
    assert (false = true); [| done].
    apply H, list_elem_of_In, list_elem_of_fmap. by exists None.
  - intros s. unfold dollar_filter.
    rewrite (filterM_TypeError_only h (getSelector (AValue (VStr s)))); [done | |].
    + intros [i |]; cbn; [| by left]. destruct (h !! i); cbn; eauto.
    + by exists None.
  - intros re. unfold dollar_filter.
    rewrite (filterM_TypeError_only h (getSelector (ARegExp re))); [done | |].
    + intros [i |]; cbn; [| by left]. destruct (h !! i); cbn; eauto.
    + by exists None.
Qed.

Lemma parent_of_the_root_throws_witness :
  Wrapper_parent root_selection (AValue VUndefined) abc_overlay
    = Throw not_a_node ∧
  Wrapper_parent (mkWrapper [1; 0]%nat None) (AValue (VStr "list")) abc_overlay
    = Throw TypeError.
Proof.
  pose (root := mkNode abc_ast None (Some [1; 2; 3]%nat)).
  split.
  - apply (parent_of_the_root_throws root_selection abc_overlay ROOT root);
      [repeat constructor; by eexists | by left | reflexivity | reflexivity].
  - apply (parent_of_the_root_throws (mkWrapper [1; 0]%nat None) abc_overlay
             ROOT root);
      [repeat constructor; by eexists | by right; left | reflexivity
      | reflexivity].
Defined.

(** ** [value] *)

Lemma string_app_nil_r (s : string) : (s ++ EmptyString)%string = s.
Proof.
  induction s as [| c s IH]; [done |].
  change (String c (s ++ EmptyString)%string = String c s). by rewrite IH.
Qed.

Lemma string_app_assoc (s1 s2 s3 : string) :
  ((s1 ++ s2) ++ s3)%string = (s1 ++ s2 ++ s3)%string.
Proof.
  induction s1 as [| c s1 IH]; [done |].
  change (String c ((s1 ++ s2) ++ s3)%string = String c (s1 ++ s2 ++ s3)%string).
  by rewrite IH.
Qed.

(** Reducing a subtree with the callback of [value] appends the text of
    the subtree. *)
Lemma Node_reduce_text h r :
  ∀ n fuel v, represents h n r → (height r ≤ fuel)%nat →
  Node_reduce fuel h
    (λ v n, let* nd := deref h (Some n) in Ok (v ++ toString (node nd))%string)
    v n
  = Ok (v ++ text r)%string.
Proof.
  induction r as [t s | t cs IH] using raw_ind'; intros n fuel v Hrep Hfuel.
  - destruct fuel as [| fuel]; [cbn in Hfuel; lia |].
    apply represents_Leaf in Hrep as [p Hn]. cbn. rewrite Hn. cbn. done.
  - destruct fuel as [| fuel]; [cbn in Hfuel; lia |].
    apply represents_Branch in Hrep as (cs0 & p & ids & Hn & Hcs).
    cbn [Node_reduce]. unfold Node_children, deref. rewrite Hn. cbn.
    assert (Hh : ∀ c, c ∈ cs → (height c ≤ fuel)%nat).
    { intros c Hc. pose proof (height_child t cs c Hc). lia. }
    assert (E : ∀ a, reduceM (Node_reduce fuel h
                 (λ v n, let* nd := deref h (Some n) in
                         Ok (v ++ toString (node nd))%string)) ids a
               = Ok (a ++ text (Branch t cs))%string).
    { clear Hn Hfuel. cbn [text].
      induction Hcs as [| i c ids cs Hi Hcs IHcs]; intros a.
      - cbn. by rewrite string_app_nil_r.
      - inversion IH; subst. cbn [reduceM foldr].
        rewrite (H1 i fuel a Hi); [| apply Hh; by left]. cbn [rbind].
        rewrite IHcs; [| done | intros c' Hc'; apply Hh; by right].
        by rewrite string_app_assoc. }
    rewrite E. cbn. rewrite ?Hn. cbn. by rewrite string_app_nil_r.
Qed.

(** X14. [value] is the text of the subtrees of the selection: the
    values of their leaves from left to right, subtree after subtree in
    selection order; nodes with children add nothing of their own. *)
Theorem value_is_the_text (fuel : nat) (this : Wrapper) (h : Overlay)
    (rs : list raw)
    (Hrs : Forall2 (represents h) (nodes this) rs)
    (Hfuel : Forall (λ r, (height r ≤ fuel)%nat) rs) :
  Wrapper_value fuel this h
    = Ok (foldr (λ r s, (text r ++ s)%string) EmptyString rs).
Proof.
  unfold Wrapper_value.
  assert (E : ∀ v, reduceM (λ v n, Node_reduce fuel h
                 (λ v n, let* nd := deref h (Some n) in
                         Ok (v ++ toString (node nd))%string) v n)
                 (nodes this) v
               = Ok (v ++ foldr (λ r s, (text r ++ s)%string) EmptyString rs)%string).
  { induction Hrs as [| n r l rs' Hn _ IH]; intros v.
    - cbn. by rewrite string_app_nil_r.
    - inversion Hfuel; subst. cbn [reduceM foldr].
      rewrite (Node_reduce_text h r n fuel v Hn); [| done]. cbn [rbind].
      rewrite IH; [| done]. by rewrite string_app_assoc. }
  apply (E EmptyString).
Qed.

Lemma value_is_the_text_witness :
  Wrapper_value 3 root_selection readme_overlay = Ok "ab" ∧
  Wrapper_value 1 (mkWrapper [4; 2]%nat None) readme_overlay = Ok "ba".
Proof.
  split.
  - apply (value_is_the_text 3 root_selection readme_overlay [readme_ast]).
    + constructor; [apply (new_Node_represents readme_ast None []) | constructor].
    + constructor; [cbn; lia | constructor].
  - apply (value_is_the_text 1 (mkWrapper [4; 2]%nat None) readme_overlay
             [item "b"; item "a"]).
    + constructor; [by exists (Some 0%nat) |].
      constructor; [by exists (Some 1%nat) | constructor].
    + constructor; [cbn; lia |]. constructor; [cbn; lia | constructor].
Defined.

(** ** Siblings of one node *)

Lemma located_index h n p pn cs i prev :
  children_consistent h → located h n p pn cs i →
  Wrapper_index (mkWrapper [n] prev) (AValue VUndefined) h = Ok (Z.of_nat i).
Proof.
  intros Hcc (_ & Hpn & Hcs & Hi).
  exact (index_is_position h Hcc p pn cs i n Hpn Hcs Hi).
Qed.

(** X15. On the selection of one node that is the child number [i] of
    its parent, [next] gives the child number [i + 1] and [prev] the
    child number [i - 1], when there is one and it satisfies the
    selector, and the empty selection otherwise. *)
Theorem next_and_prev_of_one_node (selector : arg) (h : Overlay)
    (n p : node_id) (pn : Node) (cs : list node_id) (i : nat)
    (prev : option Wrapper)
    (Hcc : children_consistent h) (Hloc : located h n p pn cs i) :
  let this := mkWrapper [n] prev in
  Wrapper_next this selector h
    = Ok (mkWrapper
            (List.filter (matches selector h) (option_list (cs !! S i)))
            (Some this)) ∧
  Wrapper_prev this selector h
    = Ok (mkWrapper
            (List.filter (matches selector h)
               (match i with O => [] | S j => option_list (cs !! j) end))
            (Some this)).
Proof.
  intros this.
  pose proof (located_index h n p pn cs i prev Hcc Hloc) as Hidx.
  destruct Hloc as ((nd & Hn & Hp) & Hpn & Hcs & Hi).
  pose proof (consistent_children_valid h p pn cs Hcc Hpn Hcs) as Hvalid.
  assert (Hlt : (i < length cs)%nat) by (by eapply lookup_lt_Some).
  split.
  - unfold Wrapper_next, flatMapM. cbn [nodes mapM]. fold this.
    unfold this at 1. rewrite Hidx. cbn.
    destruct (Z.leb_spec 0 (Z.of_nat i)); [| lia].
    unfold Node_children. cbn. rewrite Hn. cbn. rewrite Hp. cbn.
    rewrite Hpn. cbn. rewrite Hcs. cbn.
    destruct (Z.ltb_spec (Z.of_nat i) (Z.of_nat (length cs) - 1)) as [Hin | Hout].
    + unfold at_index. destruct (Z.ltb_spec (Z.of_nat i + 1) 0); [lia |].
      replace (Z.to_nat (Z.of_nat i + 1)) with (S i) by lia.
      destruct (cs !! S i) as [c |] eqn:Ec;
        [| apply lookup_ge_None in Ec; lia].
      cbn. apply (dollar_filter_nodes this selector h [c]).
      constructor; [| constructor].
      rewrite Forall_forall in Hvalid. apply Hvalid.
      by eapply list_elem_of_lookup_2.
    + rewrite (lookup_ge_None_2 cs (S i)) by lia. cbn.
      apply (dollar_filter_nodes this selector h []). constructor.
  - unfold Wrapper_prev, flatMapM. cbn [nodes mapM]. fold this.
    unfold this at 1. rewrite Hidx. cbn.
    destruct i as [| j].
    + cbn. apply (dollar_filter_nodes this selector h []). constructor.
    + destruct (Z.ltb_spec 0 (Z.of_nat (S j))); [| lia].
      unfold Node_children. cbn. rewrite Hn. cbn. rewrite Hp. cbn.
      rewrite Hpn. cbn. rewrite Hcs. cbn.
      unfold at_index. destruct (Z.ltb_spec (Z.of_nat (S j) - 1) 0); [lia |].
      replace (Z.to_nat (Z.of_nat (S j) - 1)) with j by lia.
      destruct (cs !! j) as [c |] eqn:Ec;
        [| apply lookup_ge_None in Ec; lia].
      cbn. apply (dollar_filter_nodes this selector h [c]).
      constructor; [| constructor].
      rewrite Forall_forall in Hvalid. apply Hvalid.
      by eapply list_elem_of_lookup_2.
Qed.

Lemma abc_located n i :
  [1; 2; 3]%nat !! i = Some n →
  located abc_overlay n ROOT (mkNode abc_ast None (Some [1; 2; 3]%nat))
    [1; 2; 3]%nat i.
Proof.
  intros Hi. split; [| by repeat split].
  destruct i as [| [| [| i]]]; cbn in Hi; try discriminate;
    injection Hi as <-; by eexists.
Qed.

Lemma abc_consistent : children_consistent abc_overlay.
Proof. by apply children_consistentb_spec. Qed.

Lemma next_and_prev_of_one_node_witness :
  let b := mkWrapper [2%nat] None in
  let c := mkWrapper [3%nat] None in
  Wrapper_next b (AValue VUndefined) abc_overlay = Ok (mkWrapper [3%nat] (Some b)) ∧
  Wrapper_prev b (AValue (VStr "item")) abc_overlay
    = Ok (mkWrapper [1%nat] (Some b)) ∧
  Wrapper_next c (AValue VUndefined) abc_overlay = Ok (mkWrapper [] (Some c)).
Proof.
  intros b c. split; [| split].
  - exact (proj1 (next_and_prev_of_one_node (AValue VUndefined) abc_overlay
                    2%nat ROOT _ _ 1%nat None abc_consistent
                    (abc_located 2%nat 1%nat eq_refl))).
  - exact (proj2 (next_and_prev_of_one_node (AValue (VStr "item")) abc_overlay
                    2%nat ROOT _ _ 1%nat None abc_consistent
                    (abc_located 2%nat 1%nat eq_refl))).
  - exact (proj1 (next_and_prev_of_one_node (AValue VUndefined) abc_overlay
                    3%nat ROOT _ _ 2%nat None abc_consistent
                    (abc_located 3%nat 2%nat eq_refl))).
Defined.



Lemma mapM_const_nil {A B} (fn : A → result (list B)) l :
  (∀ x, fn x = Ok []) → flatMapM fn l = Ok [].
Proof.
  intros Hfn. unfold flatMapM.
  rewrite (mapM_Ok fn l (map (λ _, []) l)).
  - cbn. f_equal. induction l as [| x l IH]; [done |]. done.
  - induction l as [| x l IH]; constructor; [apply Hfn | done].
Qed.

(** X17. On a selection that is empty or starts with a node without
    parent, [next], [prev], [nextAll] and [prevAll] give the empty
    selection for every selector, whatever the other nodes of the
    selection are, and throw nothing. *)
Theorem siblings_without_a_parent (this : Wrapper) (selector : arg)
    (h : Overlay)
    (Hthis : nodes this = [] ∨
             ∃ n nd, head (nodes this) = Some n ∧ h !! n = Some nd ∧
                     parent nd = None) :
  Wrapper_next this selector h = Ok (mkWrapper [] (Some this)) ∧
  Wrapper_prev this selector h = Ok (mkWrapper [] (Some this)) ∧
  Wrapper_nextAll this selector h = Ok (mkWrapper [] (Some this)) ∧
  Wrapper_prevAll this selector h = Ok (mkWrapper [] (Some this)).
Proof.
  assert (Hidx : Wrapper_index this (AValue VUndefined) h = Ok (-1)).
  { unfold Wrapper_index. cbn.
    destruct Hthis as [-> | (n & nd & -> & Hn & Hp)]; [done |].
    cbn. rewrite Hn. cbn. by rewrite Hp. }
  unfold Wrapper_next, Wrapper_prev, Wrapper_nextAll, Wrapper_prevAll.
  repeat split.
  all: rewrite mapM_const_nil; [reflexivity | intros x; by rewrite Hidx].
Qed.

Lemma siblings_without_a_parent_witness :
  let this := mkWrapper [0; 2]%nat None in
  Wrapper_next this (AValue VUndefined) abc_overlay = Ok (mkWrapper [] (Some this)) ∧
  Wrapper_prevAll this (AValue (VStr "item")) abc_overlay
    = Ok (mkWrapper [] (Some this)).
Proof.
  intros this.
  assert (Hthis : nodes this = [] ∨
            ∃ n nd, head (nodes this) = Some n ∧ abc_overlay !! n = Some nd ∧
                    parent nd = None).
  { right. by eexists ROOT, _. }
  split.
  - apply (siblings_without_a_parent this (AValue VUndefined) abc_overlay Hthis).
  - apply (siblings_without_a_parent this (AValue (VStr "item")) abc_overlay
             Hthis).
Defined.

(** ** Ancestors *)

(** In an overlay whose identities grow with construction, every node
    has a chain of ancestors, which ends at a node without parent and
    holds older nodes only, each once. *)
Lemma ancestors_exist h :
  ordered h →
  ∀ n nd, h !! n = Some nd →
    ∃ l, ancestors h (parent nd) l ∧ (length l ≤ n)%nat ∧
         Forall (λ m, (m < n)%nat) l ∧ NoDup l.
Proof.
  intros [_ Ho]. induction n as [n IH] using lt_wf_ind. intros nd Hn.
  destruct (parent nd) as [p |] eqn:Hp.
  - pose proof (Ho n nd p Hn Hp) as Hlt.
    pose proof (lookup_lt_length _ _ _ Hn) as Hlen.
    destruct (lookup_lt_is_Some_2 h p ltac:(lia)) as [pd Hpd].
    destruct (IH p Hlt pd Hpd) as (l & Hl & Hlen' & Hold & Hnd).
    exists (p :: l). split; [cbn; eauto |]. split; [cbn; lia |]. split.
    + constructor; [done |]. eapply Forall_impl; [done |]. cbn. lia.
    + constructor; [| done]. intros Hin. rewrite Forall_forall in Hold.
      specialize (Hold p Hin). lia.
  - exists []. split; [done |]. split; [cbn; lia |]. split; constructor.
Qed.

Lemma ancestors_valid h par l :
  ancestors h par l → Forall (λ m, is_Some (h !! m)) l.
Proof.
  revert par. induction l as [| p l IH]; intros par; [constructor |].
  intros [_ (nd & Hp & Hl)]. constructor; [by eexists | by eapply IH].
Qed.

Lemma closest_loop_chain selector h l :
  ∀ par fuel, ancestors h par l → (length l < fuel)%nat →
  closest_loop fuel (getSelector selector) h par
  = Ok (List.find (matches selector h) l).
Proof.
  induction l as [| p l IH]; intros par fuel Hl Hfuel;
    (destruct fuel as [| fuel]; [cbn in Hfuel; lia |]).
  - cbn in Hl. by subst par.
  - destruct Hl as [-> (nd & Hp & Hl)]. cbn [closest_loop List.find].
    rewrite (getSelector_Ok selector h p) by by eexists. cbn.
    destruct (matches selector h p); [done |].
    rewrite Hp. cbn. apply (IH _ _ Hl). cbn in Hfuel. lia.
Qed.

Lemma parents_loop_chain (stop : predicate) (g : node_id → bool) h l :
  ∀ par fuel, ancestors h par l → (length l < fuel)%nat →
  Forall (λ p, stop h (Some p) = Ok (g p)) l →
  parents_loop fuel stop h par = Ok (before_match g l).
Proof.
  induction l as [| p l IH]; intros par fuel Hl Hfuel Hstop;
    (destruct fuel as [| fuel]; [cbn in Hfuel; lia |]).
  - cbn in Hl. by subst par.
  - destruct Hl as [-> (nd & Hp & Hl)]. inversion Hstop; subst.
    cbn [parents_loop before_match]. rewrite H1. cbn.
    destruct (g p); [done |].
    rewrite Hp. cbn. rewrite (IH _ _ Hl); [done | cbn in Hfuel; lia | done].
Qed.


Lemma uniq_from_NoDup seen l :
  NoDup l → (∀ x, x ∈ l → x ∉ seen) → uniq_from seen l = l.
Proof.
  intros Hnd. revert seen. induction Hnd as [| x l Hx Hnd IH]; intros seen Hseen;
    [done |].
  cbn. rewrite bool_decide_eq_false_2 by (apply Hseen; by left).
  f_equal. apply IH. intros y Hy Hin.
  apply elem_of_cons in Hin as [-> | Hin]; [done |].
  apply (Hseen y); [by right | done].
Qed.

Lemma uniq_NoDup l : NoDup l → uniq l = l.
Proof. intros Hnd. apply uniq_from_NoDup; [done |]. intros x _. by inversion 1. Qed.

Lemma before_match_sublist {A} (f : A → bool) l : before_match f l `sublist_of` l.
Proof.
  induction l as [| x l IH]; [done |]. cbn.
  destruct (f x); [apply sublist_nil_l | by constructor].
Qed.

(** X18. [closest] from one node tests the node itself and then its
    ancestors from the parent upwards, and gives the first that
    satisfies the selector, or the empty selection when none does. *)
Theorem closest_of_one_node (fuel : nat) (selector : arg) (h : Overlay)
    (n : node_id) (nd : Node) (prev : option Wrapper)
    (Hord : ordered h) (Hn : h !! n = Some nd) (Hfuel : (S n < fuel)%nat) :
  ∃ l, ancestors h (parent nd) l ∧
       Wrapper_closest fuel (mkWrapper [n] prev) selector h
       = Ok (mkWrapper
               (option_list (List.find (matches selector h) (n :: l)))
               (Some (mkWrapper [n] prev))).
Proof.
  destruct (ancestors_exist h Hord n nd Hn) as (l & Hl & Hlen & _ & _).
  exists l. split; [done |].
  unfold Wrapper_closest, flatMapM. cbn [nodes mapM].
  rewrite (closest_loop_chain selector h (n :: l)); [| cbn; eauto | cbn; lia].
  cbn [rbind concat]. rewrite app_nil_r.
  replace (uniq (option_list (List.find (matches selector h) (n :: l))))
    with (option_list (List.find (matches selector h) (n :: l)))
    by by destruct (List.find _ _).
  apply new_Wrapper_nodes.
Qed.

Lemma readme_ordered : ordered readme_overlay.
Proof. apply (new_Node_ordered readme_ast None []); [done | apply ordered_nil]. Qed.

(** The ancestors of the first container's item in the README tree. *)
Lemma readme_ancestors l :
  ancestors readme_overlay (Some 1%nat) l → l = [1; 0]%nat.
Proof.
  destruct l as [| p [| q [| x l]]]; [done | | |].
  - intros [[= <-] (pd & [= <-] & Hl)]. discriminate Hl.
  - by intros [[= <-] (pd & [= <-] & [[= <-] _])].
  - intros [[= <-] (pd & [= <-] & [[= <-] (qd & [= <-] & [Hl _])])].
    discriminate Hl.
Qed.

Lemma closest_of_one_node_witness :
  let a := mkWrapper [2%nat] None in
  Wrapper_closest 4 a (AValue (VStr "item_container")) readme_overlay
    = Ok (mkWrapper [1%nat] (Some a)) ∧
  Wrapper_closest 4 a (AValue (VStr "item")) readme_overlay
    = Ok (mkWrapper [2%nat] (Some a)) ∧
  Wrapper_closest 4 a (AValue (VStr "rule")) readme_overlay
    = Ok (mkWrapper [] (Some a)).
Proof.
  intros a. subst a.
  assert (H : ∀ s,
            Wrapper_closest 4 (mkWrapper [2%nat] None) (AValue (VStr s))
              readme_overlay
            = Ok (mkWrapper
                    (option_list
                       (List.find (matches (AValue (VStr s)) readme_overlay)
                          [2; 1; 0]%nat))
                    (Some (mkWrapper [2%nat] None)))).
  { intros s.
    destruct (closest_of_one_node 4 (AValue (VStr s)) readme_overlay
                2%nat _ None readme_ordered eq_refl ltac:(lia))
      as (l & Hl & ->).
    by rewrite (readme_ancestors l Hl). }
  split; [apply H |]. split; apply H.
Defined.





(** X21. [parentsUntil] from one node gives its ancestors from the parent
    upwards as far as the first that satisfies the selector, which is
    left out; the selector stops the walk and does not filter the
    result. *)
Theorem parentsUntil_of_one_node (fuel : nat) (selector : arg) (h : Overlay)
    (n : node_id) (nd : Node) (prev : option Wrapper)
    (Hord : ordered h) (Hn : h !! n = Some nd) (Hfuel : (n < fuel)%nat) :
  ∃ l, ancestors h (parent nd) l ∧
       Wrapper_parentsUntil fuel (mkWrapper [n] prev) selector h
       = Ok (mkWrapper (before_match (matches selector h) l)
               (Some (mkWrapper [n] prev))).
Proof.
  destruct (ancestors_exist h Hord n nd Hn) as (l & Hl & Hlen & _ & Hnd).
  exists l. split; [done |].
  unfold Wrapper_parentsUntil, flatMapM. cbn [nodes mapM]. cbn [deref].
  rewrite Hn. cbn [rbind].
  rewrite (parents_loop_chain _ (matches selector h) h l); [| done | lia |].
  - cbn [rbind concat]. rewrite app_nil_r.
    rewrite uniq_NoDup
      by (eapply sublist_NoDup; [done | apply before_match_sublist]).
    apply new_Wrapper_nodes.
  - eapply Forall_impl; [by eapply ancestors_valid |].
    intros p Hp. by apply getSelector_Ok.
Qed.

Lemma parentsUntil_of_one_node_witness :
  let a := mkWrapper [2%nat] None in
  Wrapper_parentsUntil 3 a (AValue (VStr "program")) readme_overlay
    = Ok (mkWrapper [1%nat] (Some a)) ∧
  Wrapper_parentsUntil 3 a (AValue (VStr "rule")) readme_overlay
    = Ok (mkWrapper [1; 0]%nat (Some a)).
Proof.
  intros a. subst a.
  assert (H : ∀ sel,
            Wrapper_parentsUntil 3 (mkWrapper [2%nat] None) sel readme_overlay
            = Ok (mkWrapper (before_match (matches sel readme_overlay)
                               [1; 0]%nat)
                    (Some (mkWrapper [2%nat] None)))).
  { intros sel.
    destruct (parentsUntil_of_one_node 3 sel readme_overlay 2%nat _ None
                readme_ordered eq_refl ltac:(lia)) as (l & Hl & ->).
    by rewrite (readme_ancestors l Hl). }
  split; apply H.
Defined.

(** X22. [parentsUntil] without a selector, or with an argument that is
    no selector, gives the empty selection for every selection: the
    predicate that always holds stops every walk at the parent. *)
Theorem parentsUntil_without_selector (fuel : nat) (this : Wrapper) (v : value)
    (h : Overlay)
    (Hv : ∀ s, v ≠ VStr s)
    (Hvalid : Forall (λ m, is_Some (h !! m)) (nodes this)) :
  Wrapper_parentsUntil (S fuel) this (AValue v) h
    = Ok (mkWrapper [] (Some this)).
Proof.
  assert (Hloop : ∀ par, parents_loop (S fuel) (getSelector (AValue v)) h par
                         = Ok []).
  { intros [p |]; [| done]. cbn [parents_loop].
    replace (getSelector (AValue v) h (Some p)) with (@Ok bool true); [done |].
    destruct v; try reflexivity. by destruct (Hv s). }
  unfold Wrapper_parentsUntil, flatMapM.
  rewrite (mapM_Ok _ (nodes this) (map (λ _, []) (nodes this))).
  - cbn. replace (concat (map (λ _, []) (nodes this))) with (@nil node_id);
      [reflexivity |].
    clear. induction (nodes this) as [| n l IH]; [done |]. cbn. exact IH.
  - induction Hvalid as [| n l [nd Hn] _ IH]; [constructor |].
    cbn [map]. constructor; [| done].
    cbn [deref]. rewrite Hn. cbn [rbind]. apply Hloop.
Qed.

Lemma parentsUntil_without_selector_witness :
  let this := mkWrapper [2; 4]%nat None in
  Wrapper_parentsUntil 1 this (AValue VUndefined) readme_overlay
    = Ok (mkWrapper [] (Some this)).
Proof.
  intros this.
  apply (parentsUntil_without_selector 0 this VUndefined readme_overlay).
  - discriminate.
  - repeat constructor; by eexists.
Defined.

(** ** What a mutation does to the tree *)

(** Changing an older object does not change what a node spells: the
    walk from a node reaches younger objects only. *)
Lemma represents_insert_below h p x r :
  ordered h →
  ∀ c, (p < c)%nat → represents h c r → represents (<[p := x]> h) c r.
Proof.
  intros [Ho _]. induction r as [t v | t cs IH] using raw_ind'; intros c Hlt.
  - rewrite !represents_Leaf. intros [par Hc]. exists par.
    by rewrite list_lookup_insert_ne by lia.
  - rewrite !represents_Branch. intros (cs0 & par & ids & Hc & Hcs).
    exists cs0, par, ids. split; [by rewrite list_lookup_insert_ne by lia |].
    assert (Hids : ∀ i, i ∈ ids → (p < i)%nat).
    { intros i Hi. specialize (Ho c _ ids i Hc eq_refl Hi). lia. }
    clear Hc. induction Hcs as [| i r ids cs Hi Hcs IHcs]; [constructor |].
    inversion IH; subst. constructor.
    + apply H1; [apply Hids; by left | done].
    + apply IHcs; [done |]. intros j Hj. apply Hids. by right.
Qed.

Lemma located_indexOf h n p pn cs i :
  children_consistent h → located h n p pn cs i → indexOf cs n = Z.of_nat i.
Proof.
  intros Hcc (_ & Hpn & Hcs & Hi).
  destruct (Hcc p pn cs Hpn Hcs) as (_ & Hnd & _).
  apply indexOf_first; [done |].
  intros j Hj Hjn. pose proof (NoDup_lookup cs j i n Hnd Hjn Hi). lia.
Qed.

Ltac run_round Hcc Hloc i :=
  let Hidx := fresh "Hidx" in
  pose proof (located_indexOf _ _ _ _ _ _ Hcc Hloc) as Hidx;
  let Hhc := fresh "Hhc" in
  pose proof (proj1 (located_consistent _ _ _ _ _ _ Hcc Hloc)) as Hhc;
  destruct Hloc as ((?nd & ?Hn & ?Hp) & ?Hpn & ?Hcs & ?Hi);
  unfold splice_children, bind, parent_of, read, run, ret, Node_hasChildren,
    Node_children, deref; cbn;
  rewrite ?Hn; cbn; rewrite ?Hp; cbn; rewrite ?Hpn; cbn; rewrite ?Hhc; cbn;
  rewrite ?Hn; cbn; rewrite ?Hp; cbn; rewrite ?Hpn; cbn; rewrite ?Hhc; cbn;
  rewrite ?Hcs; cbn; rewrite ?Hidx; cbn;
  destruct (Z.leb_spec 0 (Z.of_nat i)); [| lia].

Lemma remove_body_located h n p pn cs i :
  children_consistent h → located h n p pn cs i →
  remove_body n h
  = (Ok tt, <[p := mkNode (node pn) (parent pn) (Some (splice i 1 [] cs))]> h).
Proof.
  intros Hcc Hloc. unfold remove_body. run_round Hcc Hloc i.
  rewrite Hpn. cbn. rewrite Hcs. cbn. by rewrite Nat2Z.id.
Qed.

Lemma insert_body_finish h p pn cs z start deleteCount :
  h !! p = Some pn → children pn = Some cs →
  (let (r0, h') := let '(a0, h') := new_Node z (Some p) h in (@Ok node_id a0, h') in
   match r0 with
   | Ok a =>
       match
         (let* nd0 := match h' !! p with
                      | Some nd0 => Ok nd0
                      | None => Throw TypeError
                      end in
          match children nd0 with
          | Some cs0 => Ok cs0
          | None => Throw TypeError
          end)
       with
       | Ok cs0 =>
           match h' !! p with
           | Some pn0 =>
               (Ok tt,
                <[p := mkNode (node pn0) (parent pn0)
                         (Some (splice start deleteCount [a] cs0))]> h')
           | None => (Throw TypeError, h')
           end
       | Throw e => (Throw e, h')
       | OutOfFuel => (OutOfFuel, h')
       end
   | Throw e => (Throw e, h')
   | OutOfFuel => (OutOfFuel, h')
   end)
  = (Ok tt,
     <[p := mkNode (node pn) (parent pn)
              (Some (splice start deleteCount [length h] cs))]>
       (snd (new_Node z (Some p) h))).
Proof.
  intros Hpn Hcs.
  destruct (new_Node_shape z (Some p) h) as (nd' & ext & Hnew & _).
  rewrite Hnew. cbn. rewrite (lookup_app_l_Some _ _ _ _ Hpn). cbn.
  rewrite Hcs. cbn. done.
Qed.

Lemma before_body_located h n p pn cs i z :
  children_consistent h → located h n p pn cs i →
  before_body (Raw z) n h
  = (Ok tt, <[p := mkNode (node pn) (parent pn)
                     (Some (splice i 0 [length h] cs))]>
              (snd (new_Node z (Some p) h))).
Proof.
  intros Hcc Hloc. unfold before_body. run_round Hcc Hloc i.
  rewrite Nat2Z.id. by apply insert_body_finish.
Qed.

Lemma after_body_located h n p pn cs i z :
  children_consistent h → located h n p pn cs i →
  after_body (Raw z) n h
  = (Ok tt, <[p := mkNode (node pn) (parent pn)
                     (Some (splice (S i) 0 [length h] cs))]>
              (snd (new_Node z (Some p) h))).
Proof.
  intros Hcc Hloc. unfold after_body, Wrapper_index. run_round Hcc Hloc i.
  replace (Z.to_nat (Z.of_nat i + 1)) with (S i) by lia.
  by apply insert_body_finish.
Qed.

Lemma replace_body_located h n p pn cs i fn z :
  children_consistent h → located h n p pn cs i → fn h n = Raw z →
  replace_body fn n h
  = (Ok tt, <[p := mkNode (node pn) (parent pn)
                     (Some (splice i 1 [length h] cs))]>
              (snd (new_Node z (Some p) h))).
Proof.
  intros Hcc Hloc Hfn. unfold replace_body. run_round Hcc Hloc i.
  rewrite Nat2Z.id, Hfn. cbn [Node_create]. by apply insert_body_finish.
Qed.

Lemma represents_set_children h p pn t cs0 cs' rs' :
  ordered h → h !! p = Some pn → node pn = Branch t cs0 →
  Forall2 (represents h) cs' rs' → (∀ c, c ∈ cs' → (p < c)%nat) →
  represents (<[p := mkNode (node pn) (parent pn) (Some cs')]> h) p
    (Branch t rs').
Proof.
  intros Hord Hp Hnode Hcs' Hlt. apply represents_Branch.
  exists cs0, (parent pn), cs'. split.
  - rewrite list_lookup_insert_eq by (by eapply lookup_lt_length).
    by rewrite Hnode.
  - generalize (mkNode (node pn) (parent pn) (Some cs')). intros x.
    induction Hcs' as [| c r cs rs Hc _ IH]; [constructor |].
    constructor.
    + apply represents_insert_below; [done | apply Hlt; by left | done].
    + apply IH. intros c' Hc'. apply Hlt. by right.
Qed.

Lemma located_represents h n p pn cs i t rs :
  located h n p pn cs i → represents h p (Branch t rs) →
  (∃ cs0, node pn = Branch t cs0) ∧ Forall2 (represents h) cs rs.
Proof.
  intros (_ & Hpn & Hcs & _) Hrep.
  apply represents_Branch in Hrep as (cs0 & par & ids & Hp & Hids).
  rewrite Hpn in Hp. injection Hp as ->. cbn in Hcs. injection Hcs as ->.
  split; [by exists cs0 | done].
Qed.

Lemma Forall2_splice {A B} (P : A → B → Prop) start deleteCount xs ys l k :
  Forall2 P xs ys → Forall2 P l k →
  Forall2 P (splice start deleteCount xs l) (splice start deleteCount ys k).
Proof.
  intros Hxy Hlk. unfold splice.
  apply Forall2_app; [by apply Forall2_take |].
  apply Forall2_app; [done | by apply Forall2_drop].
Qed.

(** What splicing one new raw node into the array of the parent leaves:
    the parent spells its old children spliced in the same way. *)
Lemma splice_raw_reflected h n p pn cs i t rs z start deleteCount :
  children_consistent h → ordered h → located h n p pn cs i →
  represents h p (Branch t rs) →
  let h' := <[p := mkNode (node pn) (parent pn)
                     (Some (splice start deleteCount [length h] cs))]>
              (snd (new_Node z (Some p) h)) in
  represents h' p (Branch t (splice start deleteCount [z] rs)) ∧ ordered h'.
Proof.
  intros Hcc Hord Hloc Hrep h'.
  destruct (located_represents h n p pn cs i t rs Hloc Hrep) as [[cs0 Hnode] Hcs].
  destruct Hloc as (_ & Hpn & Hch & _).
  pose proof (lookup_lt_length _ _ _ Hpn) as Hlt.
  pose proof (new_Node_prefix z (Some p) h) as Hpre.
  assert (Hord1 : ordered (snd (new_Node z (Some p) h))).
  { apply new_Node_ordered; [| done]. by intros q [= <-]. }
  pose proof (new_Node_represents z (Some p) h) as Hz.
  rewrite new_Node_fst in Hz.
  pose proof (prefix_lookup_Some _ _ _ _ Hpn Hpre) as Hpn1.
  assert (Hmem : ∀ c, c ∈ splice start deleteCount [length h] cs → (p < c)%nat).
  { intros c Hc. apply elem_of_splice in Hc as [Hc | Hc].
    - apply list_elem_of_singleton in Hc as ->. done.
    - destruct Hord as [Ho _]. by apply (Ho p pn cs c). }
  split.
  - apply (represents_set_children _ p pn t cs0); [done | done | done | | done].
    apply Forall2_splice; [by repeat constructor |].
    eapply Forall2_impl; [done |]. intros c r. by apply represents_mono.
  - by apply ordered_set_children.
Qed.

Lemma get_the_one_node fuel h n r :
  represents h n r → (height r ≤ fuel)%nat →
  Wrapper_get fuel (mkWrapper [n] None) (VNum (Int 0)) h = Ok (VObject r).
Proof.
  intros Hrep Hfuel. unfold Wrapper_get, at_index. cbn.
  change (Z.to_nat 0) with 0%nat. cbn.
  by rewrite (Node_toJSON_represents h r n fuel Hrep Hfuel).
Qed.

Lemma run_one_round (body : node_id → M unit) n prev h h' :
  body n h = (Ok tt, h') →
  (let! _ := for_of (nodes (mkWrapper [n] prev)) body in
   ret (mkWrapper [n] prev)) h = (Ok (mkWrapper [n] prev), h').
Proof. intros Hb. cbn [nodes for_of]. unfold bind, ret. by rewrite Hb. Qed.

(** X23. [after] with a raw node, on the selection of one node that is
    the child number [i] of [p], returns the selection and leaves [p]
    with the raw node wrapped and spliced in behind that child: what
    [get] reads back from [p] is its old JSON with the new node at
    [i + 1].  The overlay stays consistent and ordered. *)
Theorem after_inserts_behind_the_node (fuel : nat) (h : Overlay)
    (n p : node_id) (pn : Node) (cs : list node_id) (i : nat)
    (t : string) (rs : list raw) (z : raw) (prev : option Wrapper)
    (Hcc : children_consistent h) (Hord : ordered h)
    (Hloc : located h n p pn cs i) (Hrep : represents h p (Branch t rs))
    (Hfuel : (height (Branch t (splice (S i) 0 [z] rs)) ≤ fuel)%nat) :
  let this := mkWrapper [n] prev in
  ∃ h', Wrapper_after this (Raw z) h = (Ok this, h') ∧
        represents h' p (Branch t (splice (S i) 0 [z] rs)) ∧
        Wrapper_get fuel (mkWrapper [p] None) (VNum (Int 0)) h'
          = Ok (VObject (Branch t (splice (S i) 0 [z] rs))) ∧
        children_consistent h' ∧ ordered h'.
Proof.
  intros this. eexists. split.
  - apply run_one_round. by eapply after_body_located.
  - destruct (splice_raw_reflected h n p pn cs i t rs z (S i) 0
                Hcc Hord Hloc Hrep) as [H1 H2].
    destruct (splice_raw_keeps h n p pn cs i z (S i) 0 Hcc Hloc) as [H3 _].
    split; [done |]. split; [by apply get_the_one_node | done].
Qed.

(** X24. [before] with a raw node, on the selection of one node that is
    the child number [i] of [p], leaves [p] with the new node at [i], in
    front of that child. *)
Theorem before_inserts_in_front_of_the_node (fuel : nat) (h : Overlay)
    (n p : node_id) (pn : Node) (cs : list node_id) (i : nat)
    (t : string) (rs : list raw) (z : raw) (prev : option Wrapper)
    (Hcc : children_consistent h) (Hord : ordered h)
    (Hloc : located h n p pn cs i) (Hrep : represents h p (Branch t rs))
    (Hfuel : (height (Branch t (splice i 0 [z] rs)) ≤ fuel)%nat) :
  let this := mkWrapper [n] prev in
  ∃ h', Wrapper_before this (Raw z) h = (Ok this, h') ∧
        represents h' p (Branch t (splice i 0 [z] rs)) ∧
        Wrapper_get fuel (mkWrapper [p] None) (VNum (Int 0)) h'
          = Ok (VObject (Branch t (splice i 0 [z] rs))) ∧
        children_consistent h' ∧ ordered h'.
Proof.
  intros this. eexists. split.
  - apply run_one_round. by eapply before_body_located.
  - destruct (splice_raw_reflected h n p pn cs i t rs z i 0
                Hcc Hord Hloc Hrep) as [H1 H2].
    destruct (splice_raw_keeps h n p pn cs i z i 0 Hcc Hloc) as [H3 _].
    split; [done |]. split; [by apply get_the_one_node | done].
Qed.

(** X25. [replace], on the selection of one node that is the child
    number [i] of [p], with a callback that returns a raw node for it,
    leaves [p] with that raw node wrapped in the place of the child. *)
Theorem replace_puts_the_new_node_in_place (fuel : nat) (h : Overlay)
    (n p : node_id) (pn : Node) (cs : list node_id) (i : nat)
    (t : string) (rs : list raw) (z : raw) (prev : option Wrapper)
    (fn : Overlay → node_id → node_arg)
    (Hcc : children_consistent h) (Hord : ordered h)
    (Hloc : located h n p pn cs i) (Hrep : represents h p (Branch t rs))
    (Hfn : fn h n = Raw z)
    (Hfuel : (height (Branch t (splice i 1 [z] rs)) ≤ fuel)%nat) :
  let this := mkWrapper [n] prev in
  ∃ h', Wrapper_replace this fn h = (Ok this, h') ∧
        represents h' p (Branch t (splice i 1 [z] rs)) ∧
        Wrapper_get fuel (mkWrapper [p] None) (VNum (Int 0)) h'
          = Ok (VObject (Branch t (splice i 1 [z] rs))) ∧
        children_consistent h' ∧ ordered h'.
Proof.
  intros this. eexists. split.
  - apply run_one_round. by eapply replace_body_located.
  - destruct (splice_raw_reflected h n p pn cs i t rs z i 1
                Hcc Hord Hloc Hrep) as [H1 H2].
    destruct (splice_raw_keeps h n p pn cs i z i 1 Hcc Hloc) as [H3 _].
    split; [done |]. split; [by apply get_the_one_node | done].
Qed.

(** X26. [remove], on the selection of one node that is the child number
    [i] of [p], leaves [p] without that child and with its other
    children in their order. *)
Theorem remove_takes_the_node_out (fuel : nat) (h : Overlay)
    (n p : node_id) (pn : Node) (cs : list node_id) (i : nat)
    (t : string) (rs : list raw) (prev : option Wrapper)
    (Hcc : children_consistent h) (Hord : ordered h)
    (Hloc : located h n p pn cs i) (Hrep : represents h p (Branch t rs))
    (Hfuel : (height (Branch t (delete i rs)) ≤ fuel)%nat) :
  let this := mkWrapper [n] prev in
  ∃ h', Wrapper_remove this h = (Ok this, h') ∧
        represents h' p (Branch t (delete i rs)) ∧
        Wrapper_get fuel (mkWrapper [p] None) (VNum (Int 0)) h'
          = Ok (VObject (Branch t (delete i rs))) ∧
        children_consistent h' ∧ ordered h'.
Proof.
  intros this. eexists. split.
  - apply run_one_round. by eapply remove_body_located.
  - destruct (located_represents h n p pn cs i t rs Hloc Hrep)
      as [[cs0 Hnode] Hcs].
    destruct (splice_out_keeps h n p pn cs i Hcc Hloc) as [H3 _].
    assert (Hsub : ∀ c, c ∈ splice i 1 [] cs → (p < c)%nat).
    { intros c Hc. apply elem_of_splice in Hc as [Hc | Hc]; [by inversion Hc |].
      destruct Hloc as (_ & Hpn & Hch & _). destruct Hord as [Ho _].
      by apply (Ho p pn cs c). }
    destruct Hloc as (_ & Hpn & Hch & _).
    assert (H1 : represents
              (<[p := mkNode (node pn) (parent pn) (Some (splice i 1 [] cs))]> h)
              p (Branch t (delete i rs))).
    { apply (represents_set_children _ p pn t cs0); [done | done | done | | done].
      unfold splice. cbn [app]. rewrite Nat.add_1_r, <- delete_take_drop.
      by apply Forall2_delete. }
    split; [done |]. split; [by apply get_the_one_node |].
    split; [done | by apply ordered_set_children].
Qed.

Lemma abc_ordered : ordered abc_overlay.
Proof. apply (new_Node_ordered abc_ast None []); [done | apply ordered_nil]. Qed.

Lemma abc_represents : represents abc_overlay ROOT abc_ast.
Proof. apply (new_Node_represents abc_ast None []). Qed.

Lemma after_inserts_behind_the_node_witness :
  let b := mkWrapper [2%nat] None in
  ∃ h', Wrapper_after b (Raw (item "z")) abc_overlay = (Ok b, h') ∧
        Wrapper_get 2 root_selection (VNum (Int 0)) h'
        = Ok (VObject
                (Branch "list" [item "a"; item "b"; item "z"; item "c"])).
Proof.
  intros b.
  destruct (after_inserts_behind_the_node 2 abc_overlay 2%nat ROOT _ _ 1%nat
              "list" [item "a"; item "b"; item "c"] (item "z") None
              abc_consistent abc_ordered (abc_located 2%nat 1%nat eq_refl)
              abc_represents ltac:(cbn; lia))
    as (h' & H1 & _ & H2 & _).
  by exists h'.
Defined.

Lemma before_inserts_in_front_of_the_node_witness :
  let a := mkWrapper [1%nat] None in
  ∃ h', Wrapper_before a (Raw (item "z")) abc_overlay = (Ok a, h') ∧
        Wrapper_get 2 root_selection (VNum (Int 0)) h'
        = Ok (VObject
                (Branch "list" [item "z"; item "a"; item "b"; item "c"])).
Proof.
  intros a.
  destruct (before_inserts_in_front_of_the_node 2 abc_overlay 1%nat ROOT _ _
              0%nat "list" [item "a"; item "b"; item "c"] (item "z") None
              abc_consistent abc_ordered (abc_located 1%nat 0%nat eq_refl)
              abc_represents ltac:(cbn; lia))
    as (h' & H1 & _ & H2 & _).
  by exists h'.
Defined.

Lemma replace_puts_the_new_node_in_place_witness :
  let a := mkWrapper [1%nat] None in
  let fn : Overlay → node_id → node_arg := λ _ _, Raw (item "8") in
  ∃ h', Wrapper_replace a fn abc_overlay = (Ok a, h') ∧
        Wrapper_get 2 root_selection (VNum (Int 0)) h'
        = Ok (VObject (Branch "list" [item "8"; item "b"; item "c"])).
Proof.
  intros a fn.
  destruct (replace_puts_the_new_node_in_place 2 abc_overlay 1%nat ROOT _ _
              0%nat "list" [item "a"; item "b"; item "c"] (item "8") None fn
              abc_consistent abc_ordered (abc_located 1%nat 0%nat eq_refl)
              abc_represents eq_refl ltac:(cbn; lia))
    as (h' & H1 & _ & H2 & _).
  by exists h'.
Defined.

Lemma remove_takes_the_node_out_witness :
  let b := mkWrapper [2%nat] None in
  ∃ h', Wrapper_remove b abc_overlay = (Ok b, h') ∧
        Wrapper_get 2 root_selection (VNum (Int 0)) h'
        = Ok (VObject (Branch "list" [item "a"; item "c"])).
Proof.
  intros b.
  destruct (remove_takes_the_node_out 2 abc_overlay 2%nat ROOT _ _ 1%nat
              "list" [item "a"; item "b"; item "c"] None
              abc_consistent abc_ordered (abc_located 2%nat 1%nat eq_refl)
              abc_represents ltac:(cbn; lia))
    as (h' & H1 & _ & H2 & _).
  by exists h'.
Defined.

(** ** The children arrays after a mutation *)

Lemma parents_kept_refl h : parents_kept h h.
Proof. intros n nd Hn. by exists nd. Qed.

Lemma parents_kept_trans h1 h2 h3 :
  parents_kept h1 h2 → parents_kept h2 h3 → parents_kept h1 h3.
Proof.
  intros H12 H23 n nd Hn.
  destruct (H12 n nd Hn) as (nd2 & Hn2 & Hp2 & Hr2).
  destruct (H23 n nd2 Hn2) as (nd3 & Hn3 & Hp3 & Hr3).
  exists nd3. split; [done |]. split; congruence.
Qed.

(** Allocating objects and storing a new array in [p] changes no raw
    node and no parent reference. *)
Lemma parents_kept_set h h1 p pn cs' :
  h `prefix_of` h1 → h !! p = Some pn →
  parents_kept h (<[p := mkNode (node pn) (parent pn) (Some cs')]> h1).
Proof.
  intros Hpre Hp n nd Hn.
  pose proof (prefix_lookup_Some _ _ _ _ Hn Hpre) as Hn1.
  pose proof (lookup_lt_length _ _ _ Hn1) as Hlt.
  destruct (decide (n = p)) as [-> | Hne].
  - rewrite list_lookup_insert_eq by done. eexists. split; [done |].
    cbn. split; congruence.
  - rewrite list_lookup_insert_ne by done. by exists nd.
Qed.

Lemma parents_kept_remove_body n h : parents_kept h (snd (remove_body n h)).
Proof.
  destruct (remove_body_cases n h) as [-> | (p & pn & cs & i & Hloc & ->)];
    [apply parents_kept_refl |].
  destruct Hloc as (_ & Hpn & _). by apply parents_kept_set.
Qed.

Lemma parents_kept_before_body r n h :
  parents_kept h (snd (before_body (Raw r) n h)).
Proof.
  destruct (before_body_cases r n h) as [-> | (p & pn & cs & i & Hloc & ->)];
    [apply parents_kept_refl |].
  destruct Hloc as (_ & Hpn & _).
  apply parents_kept_set; [apply new_Node_prefix | done].
Qed.

Lemma parents_kept_after_body r n h :
  parents_kept h (snd (after_body (Raw r) n h)).
Proof.
  destruct (after_body_cases r n h) as [-> | (p & pn & cs & i & Hloc & ->)];
    [apply parents_kept_refl |].
  destruct Hloc as (_ & Hpn & _).
  apply parents_kept_set; [apply new_Node_prefix | done].
Qed.

Lemma parents_kept_replace_body fn r n h :
  fn h n = Raw r → parents_kept h (snd (replace_body fn n h)).
Proof.
  intros Hfn.
  destruct (replace_body_cases fn r n h Hfn)
    as [-> | (p & pn & cs & i & Hloc & ->)]; [apply parents_kept_refl |].
  destruct Hloc as (_ & Hpn & _).
  apply parents_kept_set; [apply new_Node_prefix | done].
Qed.

(** The arrays of the objects that the constructor allocates hold
    younger objects only. *)
Lemma new_Node_young r :
  ∀ par h q qn cs c,
    snd (new_Node r par h) !! q = Some qn → (length h ≤ q)%nat →
    children qn = Some cs → c ∈ cs → (q < c)%nat.
Proof.
  induction r as [t v | t cs0 IH] using raw_ind'; intros par h q qn cs c.
  - cbn [new_Node snd]. intros Hq Hle Hcs Hc.
    pose proof (lookup_lt_length _ _ _ Hq) as Hlt.
    rewrite length_app in Hlt. cbn in Hlt.
    assert (q = length h) as -> by lia.
    rewrite list_lookup_middle in Hq by done. injection Hq as <-. done.
  - rewrite new_Node_Branch.
    set (cell0 := mkNode (Branch t cs0) par None).
    assert (Hmap : ∀ h0 q qn cs c,
              snd (map_new_Node cs0 (length h) h0) !! q = Some qn →
              (length h0 ≤ q)%nat → children qn = Some cs → c ∈ cs →
              (q < c)%nat).
    { clear q qn cs c.
      induction IH as [| c0 cs' Hc0 _ IHcs]; intros h0 q qn cs c.
      - cbn. intros Hq Hle. apply lookup_lt_length in Hq. lia.
      - cbn [map_new_Node].
        specialize (Hc0 (Some (length h)) h0).
        pose proof (new_Node_prefix c0 (Some (length h)) h0) as Hpre.
        destruct (new_Node c0 (Some (length h)) h0) as [i h1]. cbn [snd] in *.
        specialize (IHcs h1).
        pose proof (map_new_Node_prefix cs' (length h) h1) as Hpre1.
        destruct (map_new_Node cs' (length h) h1) as [ids h2]. cbn [snd] in *.
        intros Hq Hle Hcs Hc.
        destruct (decide (q < length h1)%nat) as [Hlt | Hge].
        + destruct (lookup_lt_is_Some_2 h1 q Hlt) as [x Hx].
          pose proof (prefix_lookup_Some _ _ _ _ Hx Hpre1) as Hx2.
          assert (x = qn) as -> by congruence.
          by eapply Hc0.
        + eapply IHcs; [done | lia | done | done]. }
    pose proof (map_new_Node_ids cs0 (length h) (h ++ [cell0])) as Hids.
    specialize (Hmap (h ++ [cell0])).
    destruct (map_new_Node cs0 (length h) (h ++ [cell0])) as [ids h1].
    cbn [fst snd] in *.
    intros Hq Hle Hcs Hc.
    destruct (decide (q = length h)) as [-> | Hne].
    + pose proof (lookup_lt_length _ _ _ Hq) as Hlt.
      rewrite length_insert in Hlt.
      rewrite list_lookup_insert_eq in Hq by done. injection Hq as <-.
      cbn in Hcs. injection Hcs as <-.
      specialize (Hids c Hc). rewrite length_app in Hids. cbn in Hids. lia.
    + rewrite list_lookup_insert_ne in Hq by done.
      eapply Hmap; [done | | done | done].
      rewrite length_app. cbn. lia.
Qed.

(** In a consistent overlay a member of an array has the holder as its
    parent. *)
Lemma member_has_parent h q qn cs n nd :
  children_consistent h → h !! q = Some qn → children qn = Some cs →
  n ∈ cs → h !! n = Some nd → parent nd = Some q.
Proof.
  intros Hcc Hq Hcs Hin Hn.
  destruct (Hcc q qn cs Hq Hcs) as (_ & _ & Hmem).
  destruct (Hmem n Hin) as (cn & Hcn & Hpar). congruence.
Qed.

(** A node that a round passes over is in no array. *)
Lemma passed_over_is_detached h n nd p pn :
  children_consistent h →
  h !! n = Some nd → parent nd = Some p → h !! p = Some pn →
  hasChildren (node pn) = false ∨ (∃ cs, children pn = Some cs ∧ n ∉ cs) →
  detached h n.
Proof.
  intros Hcc Hn Hp Hpn Hwhy q qn cs Hq Hcs Hin.
  pose proof (member_has_parent h q qn cs n nd Hcc Hq Hcs Hin Hn) as Hpar.
  assert (q = p) as -> by congruence.
  assert (qn = pn) as -> by congruence.
  destruct Hwhy as [Hhc | (cs' & Hcs' & Hnin)].
  - destruct (Hcc p pn cs Hpn Hcs) as (Hhc' & _). congruence.
  - assert (cs' = cs) as -> by congruence. done.
Qed.

Lemma splice_drops_the_node i (items cs : list node_id) n :
  NoDup cs → cs !! i = Some n → n ∉ items → n ∉ splice i 1 items cs.
Proof.
  intros Hnd Hi Hitems. unfold splice. rewrite Nat.add_1_r.
  rewrite <- (take_drop_middle cs i n Hi) in Hnd.
  apply NoDup_app in Hnd as (_ & Hdis & Hnd).
  apply NoDup_cons in Hnd as [Hnin _].
  rewrite !elem_of_app. intros [H | [H | H]]; [| done | done].
  apply (Hdis n H). by left.
Qed.

(** Storing in [p] an array without [n] leaves [n] in no array when no
    other array holds it. *)
Lemma set_children_detached h p pn cs' n :
  h !! p = Some pn → n ∉ cs' →
  (∀ q qn cs, q ≠ p → h !! q = Some qn → children qn = Some cs → n ∉ cs) →
  detached (<[p := mkNode (node pn) (parent pn) (Some cs')]> h) n.
Proof.
  intros Hp Hnin Hother q qn cs Hq Hcs.
  pose proof (lookup_lt_length _ _ _ Hp) as Hlt.
  destruct (decide (q = p)) as [-> | Hne].
  - rewrite list_lookup_insert_eq in Hq by done. injection Hq as <-.
    cbn in Hcs. by injection Hcs as <-.
  - rewrite list_lookup_insert_ne in Hq by done. by eapply Hother.
Qed.

(** How a round of [remove] ends. *)
Lemma remove_body_outcome n h :
  (∃ e, remove_body n h = (Throw e, h)) ∨
  (remove_body n h = (Ok tt, h) ∧
   ∃ nd p pn, h !! n = Some nd ∧ parent nd = Some p ∧ h !! p = Some pn ∧
     (hasChildren (node pn) = false ∨ ∃ cs, children pn = Some cs ∧ n ∉ cs)) ∨
  (∃ p pn cs i, located h n p pn cs i ∧
     remove_body n h
       = (Ok tt, <[p := mkNode (node pn) (parent pn) (Some (splice i 1 [] cs))]> h)).
Proof.
  unfold remove_body, splice_children, bind, parent_of, read, run, ret,
    Node_hasChildren, Node_children, deref. cbn.
  destruct (h !! n) as [nd |] eqn:Hn; cbn; [| left; by eexists].
  destruct (parent nd) as [p |] eqn:Hp; cbn; [| left; by eexists].
  destruct (h !! p) as [pn |] eqn:Hpn; cbn; [| left; by eexists].
  destruct (hasChildren (node pn)) eqn:Hhc; cbn;
    [| right; left; split; [done |]; exists nd, p, pn; auto].
  rewrite ?Hn, ?Hpn; cbn; rewrite ?Hp; cbn; rewrite ?Hpn; cbn.
  rewrite ?Hhc; cbn.
  destruct (children pn) as [cs |] eqn:Hcs; cbn; [| left; by eexists].
  destruct (indexOf_spec cs n) as [[-> Hnin] | (i & -> & Hi)]; cbn.
  { right; left. split; [done |]. exists nd, p, pn.
    split; [done |]. split; [done |]. split; [done |]. right. by exists cs. }
  destruct (Z.leb_spec 0 (Z.of_nat i)); [| lia].
  rewrite Hpn. cbn. rewrite Hcs. cbn. right; right. exists p, pn, cs, i.
  rewrite Nat2Z.id. split; [| done]. repeat split; eauto.
Qed.

(** How a round of [replace] ends when the callback returns a raw node. *)
Lemma replace_body_outcome fn r n h :
  fn h n = Raw r →
  (∃ e, replace_body fn n h = (Throw e, h)) ∨
  (replace_body fn n h = (Ok tt, h) ∧
   ∃ nd p pn, h !! n = Some nd ∧ parent nd = Some p ∧ h !! p = Some pn ∧
     (hasChildren (node pn) = false ∨ ∃ cs, children pn = Some cs ∧ n ∉ cs)) ∨
  (∃ p pn cs i, located h n p pn cs i ∧
     replace_body fn n h
       = (Ok tt, <[p := mkNode (node pn) (parent pn)
                          (Some (splice i 1 [length h] cs))]>
                   (snd (new_Node r (Some p) h)))).
Proof.
  intros Hfn.
  unfold replace_body, splice_children, bind, parent_of, read, run, ret,
    Node_hasChildren, Node_children, deref. cbn.
  destruct (h !! n) as [nd |] eqn:Hn; cbn; [| left; by eexists].
  destruct (parent nd) as [p |] eqn:Hp; cbn; [| left; by eexists].
  destruct (h !! p) as [pn |] eqn:Hpn; cbn; [| left; by eexists].
  destruct (hasChildren (node pn)) eqn:Hhc; cbn;
    [| right; left; split; [done |]; exists nd, p, pn; auto].
  rewrite ?Hn, ?Hpn; cbn; rewrite ?Hp; cbn; rewrite ?Hpn; cbn.
  rewrite ?Hhc; cbn.
  destruct (children pn) as [cs |] eqn:Hcs; cbn; [| left; by eexists].
  destruct (indexOf_spec cs n) as [[-> Hnin] | (i & -> & Hi)]; cbn.
  { right; left. split; [done |]. exists nd, p, pn.
    split; [done |]. split; [done |]. split; [done |]. right. by exists cs. }
  destruct (Z.leb_spec 0 (Z.of_nat i)); [| lia].
  right; right. exists p, pn, cs, i. split; [repeat split; eauto |].
  rewrite Nat2Z.id, Hfn. cbn [Node_create].
  destruct (new_Node_shape r (Some p) h) as (nd' & ext & Hnew & _).
  rewrite Hnew. cbn. rewrite (lookup_app_l_Some _ _ _ _ Hpn). cbn.
  rewrite Hcs. cbn. done.
Qed.

(** A round of [remove] that completes leaves its node in no array. *)
Lemma remove_body_detaches n h :
  children_consistent h → fst (remove_body n h) = Ok tt →
  detached (snd (remove_body n h)) n.
Proof.
  intros Hcc Hok.
  destruct (remove_body_outcome n h)
    as [[e He] | [[He (nd & p & pn & Hn & Hp & Hpn & Hwhy)]
                 | (p & pn & cs & i & Hloc & He)]];
    rewrite He in Hok |- *; cbn [fst snd] in *; [done | |].
  - by eapply passed_over_is_detached.
  - destruct (located_consistent h n p pn cs i Hcc Hloc) as (_ & Hnd & _).
    destruct Hloc as ((nd & Hn & Hp) & Hpn & Hcs & Hi).
    apply set_children_detached; [done | |].
    + apply splice_drops_the_node; [done | done | by inversion 1].
    + intros q qn cs' Hne Hq Hcs' Hin. apply Hne.
      pose proof (member_has_parent h q qn cs' n nd Hcc Hq Hcs' Hin Hn).
      congruence.
Qed.

(** Later rounds of [remove] put it into no array. *)
Lemma remove_body_keeps_detached n m h :
  detached h n → detached (snd (remove_body m h)) n.
Proof.
  intros Hdet.
  destruct (remove_body_cases m h) as [-> | (p & pn & cs & i & Hloc & ->)];
    [done |].
  destruct Hloc as (_ & Hpn & Hcs & _).
  apply set_children_detached; [done | |].
  - intros Hin. apply elem_of_splice in Hin as [Hin | Hin]; [by inversion Hin |].
    by apply (Hdet p pn cs).
  - intros q qn cs' _ Hq Hcs'. by apply (Hdet q qn cs').
Qed.

(** A node of [h] that is in no array of [h] is in none after a raw node
    is wrapped and spliced into an array. *)
Lemma splice_raw_keeps_detached h n p pn cs r start deleteCount :
  h !! p = Some pn → children pn = Some cs →
  (n < length h)%nat → detached h n →
  let h' := <[p := mkNode (node pn) (parent pn)
                     (Some (splice start deleteCount [length h] cs))]>
              (snd (new_Node r (Some p) h)) in
  (n < length h')%nat ∧ detached h' n.
Proof.
  intros Hpn Hcs Hlt Hdet h'.
  pose proof (new_Node_prefix r (Some p) h) as Hpre.
  pose proof (prefix_lookup_Some _ _ _ _ Hpn Hpre) as Hpn1.
  split.
  { unfold h'. rewrite length_insert. apply prefix_length in Hpre. lia. }
  apply set_children_detached; [done | |].
  - intros Hin. apply elem_of_splice in Hin as [Hin | Hin].
    + apply list_elem_of_singleton in Hin. lia.
    + by apply (Hdet p pn cs).
  - intros q qn cs' _ Hq Hcs' Hin.
    destruct (decide (q < length h)%nat) as [Hq_old | Hq_new].
    + destruct (lookup_lt_is_Some_2 h q Hq_old) as [x Hx].
      pose proof (prefix_lookup_Some _ _ _ _ Hx Hpre) as Hx1.
      assert (x = qn) as -> by congruence.
      by apply (Hdet q qn cs').
    + pose proof (new_Node_young r (Some p) h q qn cs' n Hq ltac:(lia) Hcs' Hin).
      lia.
Qed.

(** A round of [replace] that completes leaves its node in no array. *)
Lemma replace_body_detaches fn r n h :
  fn h n = Raw r →
  children_consistent h → fst (replace_body fn n h) = Ok tt →
  (n < length (snd (replace_body fn n h)))%nat ∧
  detached (snd (replace_body fn n h)) n.
Proof.
  intros Hfn Hcc Hok.
  destruct (replace_body_outcome fn r n h Hfn)
    as [[e He] | [[He (nd & p & pn & Hn & Hp & Hpn & Hwhy)]
                 | (p & pn & cs & i & Hloc & He)]];
    rewrite He in Hok |- *; cbn [fst snd] in *; [done | |].
  - split; [by eapply lookup_lt_length | by eapply passed_over_is_detached].
  - destruct (located_consistent h n p pn cs i Hcc Hloc) as (_ & Hnd & _).
    destruct Hloc as ((nd & Hn & Hp) & Hpn & Hcs & Hi).
    pose proof (lookup_lt_length _ _ _ Hn) as Hlt.
    pose proof (new_Node_prefix r (Some p) h) as Hpre.
    pose proof (prefix_lookup_Some _ _ _ _ Hpn Hpre) as Hpn1.
    split.
    { rewrite length_insert. apply prefix_length in Hpre. lia. }
    apply set_children_detached; [done | |].
    + apply splice_drops_the_node; [done | done |].
      intros Hin. apply list_elem_of_singleton in Hin. lia.
    + intros q qn cs' Hne Hq Hcs' Hin.
      destruct (decide (q < length h)%nat) as [Hq_old | Hq_new].
      * destruct (lookup_lt_is_Some_2 h q Hq_old) as [x Hx].
        pose proof (prefix_lookup_Some _ _ _ _ Hx Hpre) as Hx1.
        assert (x = qn) as -> by congruence.
        apply Hne.
        pose proof (member_has_parent h q qn cs' n nd Hcc Hx Hcs' Hin Hn).
        congruence.
      * pose proof (new_Node_young r (Some p) h q qn cs' n Hq ltac:(lia) Hcs' Hin).
        lia.
Qed.

(** Later rounds of [replace] put it into no array. *)
Lemma replace_body_keeps_detached fn r n m h :
  fn h m = Raw r →
  (n < length h)%nat ∧ detached h n →
  (n < length (snd (replace_body fn m h)))%nat ∧
  detached (snd (replace_body fn m h)) n.
Proof.
  intros Hfn [Hlt Hdet].
  destruct (replace_body_cases fn r m h Hfn)
    as [-> | (p & pn & cs & i & Hloc & ->)]; [done |].
  destruct Hloc as (_ & Hpn & Hcs & _).
  by apply splice_raw_keeps_detached.
Qed.

(** What every round that completes establishes of its element holds of
    every element when the loop completes, if the later rounds keep it. *)
Lemma for_of_keeps {A} (I : Overlay → Prop) (Q : Overlay → Prop)
    (l : list A) (body : A → M unit) :
  (∀ x h, I h → I (snd (body x h))) →
  (∀ x h, I h → Q h → Q (snd (body x h))) →
  ∀ h, I h → Q h → Q (snd (for_of l body h)).
Proof.
  intros HI HQ. induction l as [| x l IH]; intros h Hh Hq; [done |].
  cbn [for_of]. unfold bind.
  pose proof (HI x h Hh) as Hx. pose proof (HQ x h Hh Hq) as Hqx.
  destruct (body x h) as [[[] | e |] h1]; cbn [snd] in *; try done.
  by apply IH.
Qed.

Lemma for_of_each {A} (I : Overlay → Prop) (Q : A → Overlay → Prop)
    (l : list A) (body : A → M unit) :
  (∀ x h, I h → I (snd (body x h))) →
  (∀ x h, I h → fst (body x h) = Ok tt → Q x (snd (body x h))) →
  (∀ x y h, I h → Q x h → Q x (snd (body y h))) →
  ∀ h, I h → fst (for_of l body h) = Ok tt →
       ∀ x, x ∈ l → Q x (snd (for_of l body h)).
Proof.
  intros HI Hdone Hlater. induction l as [| y l IH]; intros h Hh Hok x Hx;
    [by inversion Hx |].
  cbn [for_of] in *. unfold bind in *.
  pose proof (HI y h Hh) as Hy. pose proof (Hdone y h Hh) as Hqy.
  destruct (body y h) as [[[] | e |] h1]; cbn [fst snd] in *; try done.
  apply elem_of_cons in Hx as [-> | Hx].
  - apply (for_of_keeps I (Q y)); [done | | done | by apply Hqy].
    intros z h2. apply Hlater.
  - by apply IH.
Qed.

Lemma fst_loop_then_ret {A} (l : list A) (body : A → M unit) (this : Wrapper) h :
  fst ((let! _ := for_of l body in ret this) h) = Ok this →
  fst (for_of l body h) = Ok tt.
Proof. unfold bind, ret. by destruct (for_of l body h) as [[[] | e |] h1]. Qed.

(** C5, as the code has it.  The overlay that [createQuery] builds is
    consistent: every member of a children array is a node whose parent
    is the holder of the array and occurs in it once.  On a consistent
    overlay, [after] or [before] with a raw node, [remove], and
    [replace] with a callback that returns raw nodes leave a consistent
    overlay, in which [index()] of a member of an array is its place,
    and in which every older node has the raw node and the parent
    reference it had.  [after] and [before] keep every node that was
    among the children of its parent there; [remove] and [replace] keep
    those outside the selection there, and when they complete every
    node of the selection is in no children array.  All but the last
    holds of the overlay the call leaves also when the call throws on a
    later node. *)
Theorem mutations_keep_children_consistent (this : Wrapper) (r : raw)
    (fn : Overlay → node_id → node_arg) (h : Overlay)
    (Hcc : children_consistent h)
    (Hfn : ∀ h n, ∃ r, fn h n = Raw r) :
  (let h' := snd (Wrapper_after this (Raw r) h) in
   children_consistent h' ∧ index_is_place h' ∧ parents_kept h h' ∧
   ∀ q, attached h q → attached h' q) ∧
  (let h' := snd (Wrapper_before this (Raw r) h) in
   children_consistent h' ∧ index_is_place h' ∧ parents_kept h h' ∧
   ∀ q, attached h q → attached h' q) ∧
  (let h' := snd (Wrapper_remove this h) in
   children_consistent h' ∧ index_is_place h' ∧ parents_kept h h' ∧
   (∀ q, q ∉ nodes this → attached h q → attached h' q) ∧
   (fst (Wrapper_remove this h) = Ok this →
    ∀ n, n ∈ nodes this → detached h' n)) ∧
  (let h' := snd (Wrapper_replace this fn h) in
   children_consistent h' ∧ index_is_place h' ∧ parents_kept h h' ∧
   (∀ q, q ∉ nodes this → attached h q → attached h' q) ∧
   (fst (Wrapper_replace this fn h) = Ok this →
    ∀ n, n ∈ nodes this → detached h' n)) ∧
  (∀ ast h0, createQuery ast = Ok h0 → children_consistent h0).
Proof.
  assert (Hidx : ∀ (h' : Overlay) (P : Prop),
            children_consistent h' ∧ P →
            children_consistent h' ∧ index_is_place h' ∧ P).
  { intros h' P [H1 H2]. split; [done |]. split; [by apply index_is_position | done]. }
  assert (Hremove : ∀ n h1, children_consistent h1 →
            children_consistent (snd (remove_body n h1))).
  { intros n h1 Hcc1.
    destruct (remove_body_cases n h1) as [-> | (p & pn & cs & i & Hloc & ->)];
      [done |].
    by destruct (splice_out_keeps h1 n p pn cs i Hcc1 Hloc). }
  assert (Hreplace : ∀ n h1, children_consistent h1 →
            children_consistent (snd (replace_body fn n h1))).
  { intros n h1 Hcc1. destruct (Hfn h1 n) as [r' Hr'].
    destruct (replace_body_cases fn r' n h1 Hr')
      as [-> | (p & pn & cs & i & Hloc & ->)]; [done |].
    by destruct (splice_raw_keeps h1 n p pn cs i r' i 1 Hcc1 Hloc). }
  split; [| split; [| split; [| split]]]; cbn zeta.
  - apply Hidx. unfold Wrapper_after. rewrite snd_loop_then_ret.
    apply (for_of_invariant
             (λ h', children_consistent h' ∧ parents_kept h h' ∧
                    ∀ q, attached h q → attached h' q));
      [| split; [done | split; [apply parents_kept_refl | done]]].
    intros n h1 _ (Hcc1 & Hpar1 & Hatt1).
    split; [| split].
    + destruct (after_body_cases r n h1) as [-> | (p & pn & cs & i & Hloc & ->)];
        [done |].
      by destruct (splice_raw_keeps h1 n p pn cs i r (i + 1) 0 Hcc1 Hloc).
    + eapply parents_kept_trans; [done | apply parents_kept_after_body].
    + destruct (after_body_cases r n h1) as [-> | (p & pn & cs & i & Hloc & ->)];
        [done |].
      destruct (splice_raw_keeps h1 n p pn cs i r (i + 1) 0 Hcc1 Hloc) as [_ H2].
      intros q Hq. apply H2; [apply splice_insert_keeps | by apply Hatt1].
  - apply Hidx. unfold Wrapper_before. rewrite snd_loop_then_ret.
    apply (for_of_invariant
             (λ h', children_consistent h' ∧ parents_kept h h' ∧
                    ∀ q, attached h q → attached h' q));
      [| split; [done | split; [apply parents_kept_refl | done]]].
    intros n h1 _ (Hcc1 & Hpar1 & Hatt1).
    split; [| split].
    + destruct (before_body_cases r n h1) as [-> | (p & pn & cs & i & Hloc & ->)];
        [done |].
      by destruct (splice_raw_keeps h1 n p pn cs i r i 0 Hcc1 Hloc).
    + eapply parents_kept_trans; [done | apply parents_kept_before_body].
    + destruct (before_body_cases r n h1) as [-> | (p & pn & cs & i & Hloc & ->)];
        [done |].
      destruct (splice_raw_keeps h1 n p pn cs i r i 0 Hcc1 Hloc) as [_ H2].
      intros q Hq. apply H2; [apply splice_insert_keeps | by apply Hatt1].
  - assert (Hinv : let h' := snd (for_of (nodes this) remove_body h) in
              children_consistent h' ∧ parents_kept h h' ∧
              ∀ q, q ∉ nodes this → attached h q → attached h' q).
    { apply (for_of_invariant
               (λ h', children_consistent h' ∧ parents_kept h h' ∧
                      ∀ q, q ∉ nodes this → attached h q → attached h' q));
        [| split; [done | split; [apply parents_kept_refl | done]]].
      intros n h1 Hn (Hcc1 & Hpar1 & Hatt1).
      split; [by apply Hremove | split].
      - eapply parents_kept_trans; [done | apply parents_kept_remove_body].
      - destruct (remove_body_cases n h1) as [-> | (p & pn & cs & i & Hloc & ->)];
          [done |].
        destruct (splice_out_keeps h1 n p pn cs i Hcc1 Hloc) as [_ H2].
        intros q Hq Hatt. apply H2; [by intros -> | by apply Hatt1]. }
    cbn zeta in Hinv. destruct Hinv as (H1 & H2 & H3).
    unfold Wrapper_remove. rewrite snd_loop_then_ret.
    split; [done |]. split; [by apply index_is_position |].
    split; [done |]. split; [done |].
    intros Hok n Hn. apply fst_loop_then_ret in Hok.
    apply (for_of_each children_consistent (λ n h', detached h' n)
             (nodes this) remove_body); try done.
    + intros x h1. apply remove_body_detaches.
    + intros x y h1 _. apply remove_body_keeps_detached.
  - assert (Hinv : let h' := snd (for_of (nodes this) (replace_body fn) h) in
              children_consistent h' ∧ parents_kept h h' ∧
              ∀ q, q ∉ nodes this → attached h q → attached h' q).
    { apply (for_of_invariant
               (λ h', children_consistent h' ∧ parents_kept h h' ∧
                      ∀ q, q ∉ nodes this → attached h q → attached h' q));
        [| split; [done | split; [apply parents_kept_refl | done]]].
      intros n h1 Hn (Hcc1 & Hpar1 & Hatt1).
      split; [by apply Hreplace | split].
      - destruct (Hfn h1 n) as [r' Hr'].
        eapply parents_kept_trans; [done | by eapply parents_kept_replace_body].
      - destruct (Hfn h1 n) as [r' Hr'].
        destruct (replace_body_cases fn r' n h1 Hr')
          as [-> | (p & pn & cs & i & Hloc & ->)]; [done |].
        destruct (splice_raw_keeps h1 n p pn cs i r' i 1 Hcc1 Hloc) as [_ H2].
        intros q Hq Hatt. apply H2; [| by apply Hatt1].
        destruct Hloc as (_ & _ & _ & Hi).
        apply (splice_delete_keeps i _ cs n q Hi). by intros ->. }
    cbn zeta in Hinv. destruct Hinv as (H1 & H2 & H3).
    unfold Wrapper_replace. rewrite snd_loop_then_ret.
    split; [done |]. split; [by apply index_is_position |].
    split; [done |]. split; [done |].
    intros Hok n Hn. apply fst_loop_then_ret in Hok.
    apply (for_of_each children_consistent
             (λ n h', (n < length h')%nat ∧ detached h' n)
             (nodes this) (replace_body fn)); try done.
    + intros x h1 Hcc1 Hx. destruct (Hfn h1 x) as [r' Hr'].
      by eapply replace_body_detaches.
    + intros x y h1 _ Hx. destruct (Hfn h1 y) as [r' Hr'].
      by eapply replace_body_keeps_detached.
  - intros ast h0 Hast. destruct ast; try discriminate Hast.
    cbn in Hast. injection Hast as <-. apply new_Node_invariant.
Qed.

Lemma mutations_keep_children_consistent_witness :
  let b := mkWrapper [2%nat] None in
  let z := item "z" in
  let fn : Overlay → node_id → node_arg := λ _ _, Raw (item "8") in
  children_consistent abc_overlay ∧
  children_consistent (snd (Wrapper_after b (Raw z) abc_overlay)) ∧
  children_consistent (snd (Wrapper_before b (Raw z) abc_overlay)) ∧
  children_consistent (snd (Wrapper_remove b abc_overlay)) ∧
  children_consistent (snd (Wrapper_replace b fn abc_overlay)) ∧
  detached (snd (Wrapper_remove b abc_overlay)) 2%nat ∧
  detached (snd (Wrapper_replace b fn abc_overlay)) 2%nat ∧
  parents_kept abc_overlay (snd (Wrapper_remove b abc_overlay)) ∧
  Node_children (snd (Wrapper_after b (Raw z) abc_overlay)) (Some ROOT)
    = Ok [1; 2; 4; 3]%nat ∧
  Node_children (snd (Wrapper_replace b fn abc_overlay)) (Some ROOT)
    = Ok [1; 4; 3]%nat.
Proof.
  intros b z fn.
  assert (Hcc : children_consistent abc_overlay)
    by (by apply children_consistentb_spec).
  assert (Hfn : ∀ (h : Overlay) (n : node_id), ∃ r, fn h n = Raw r)
    by (intros h n; by exists (item "8")).
  destruct (mutations_keep_children_consistent b z fn abc_overlay Hcc Hfn)
    as ((Ha & _) & (Hb & _) & (Hr & _ & Hrp & _ & Hrd) & (Hp & _ & _ & _ & Hpd) & _).
  split; [exact Hcc |]. split; [exact Ha |]. split; [exact Hb |].
  split; [exact Hr |]. split; [exact Hp |].
  split; [apply Hrd; [reflexivity | by left] |].
  split; [apply Hpd; [reflexivity | by left] |].
  split; [exact Hrp |]. split; reflexivity.
Defined.

(** C5 as stated fails on the overlay of three siblings, which
    [createQuery] builds and in which every node with a parent is among
    the children of that parent.  [after] on [b] with the node [b]
    itself, which is already wrapped, completes and puts that very node
    a second time into the array of the root; [index()] of the node at
    the place [2] of the array is then [1]. *)
Lemma mutation_breaks_overlay_invariant :
  let b := mkWrapper [2%nat] None in
  let h' := snd (Wrapper_after b (Wrapped 2%nat) abc_overlay) in
  createQuery (VObject abc_ast) = Ok abc_overlay ∧
  overlay_invariant abc_overlay ∧
  fst (Wrapper_after b (Wrapped 2%nat) abc_overlay) = Ok b ∧
  (∃ cs, Node_children h' (Some ROOT) = Ok cs ∧ cs !! 2%nat = Some 2%nat ∧
         ¬ NoDup cs) ∧
  Wrapper_index b (AValue VUndefined) h' = Ok 1 ∧
  ¬ children_consistent h' ∧ ¬ index_is_place h'.
Proof.
  intros b h'.
  split; [reflexivity |].
  split; [apply (new_Node_invariant abc_ast) |].
  split; [reflexivity |].
  assert (Hdup : ¬ NoDup [1; 2; 2; 3]%nat).
  { intros Hnd. apply NoDup_cons in Hnd as [_ Hnd].
    apply NoDup_cons in Hnd as [Hnin _]. apply Hnin. by left. }
  split; [exists [1; 2; 2; 3]%nat; by repeat split |].
  split; [reflexivity |].
  split.
  - intros Hcc. apply children_consistentb_spec in Hcc. discriminate Hcc.
  - intros Hidx.
    specialize (Hidx ROOT (mkNode abc_ast None (Some [1; 2; 2; 3]%nat))
                  [1; 2; 2; 3]%nat 2%nat 2%nat eq_refl eq_refl eq_refl).
    discriminate Hidx.
Qed.
